(** * The subscription layer of the presentation stack

    A shallow embedding of [pyuavcan/presentation/_session/_subscriber.py]:
    the per-consumer [_Listener], the shared receiver [SubscriberImpl] with
    its background task, and the public [Subscriber] handle.

    Python objects live in stores indexed by address (a [nat]); a method
    takes the address of [self].  Synchronous code runs in the monad [Py]
    (a state monad over [World] whose results are a value or a raised
    exception).  A coroutine is cut at its [await]s: one function runs it
    from its first statement to the first suspension, a second one resumes
    it with the answer of the awaited call. *)

From Stdlib Require Import ZArith String Floats Lia.
From stdpp Require Import base option list strings.

Set Warnings "-register-all".
Local Open Scope Z_scope.

(** ** Exceptions *)

(** The exception classes the module raises, catches or receives.  Every
    one of them derives from [Exception]. *)
Inductive ExcClass :=
| CancelledError                  (* asyncio.CancelledError *)
| TimeoutError                    (* asyncio.TimeoutError *)
| QueueEmpty                      (* asyncio.QueueEmpty *)
| QueueFull                       (* asyncio.QueueFull *)
| ValueError
| RuntimeError
| StopAsyncIteration
| ResourceClosedError             (* pyuavcan.transport.ResourceClosedError *)
| PresentationSessionClosedError  (* ._error.PresentationSessionClosedError *)
| UserException (name : string).  (* any other subclass of Exception *)

#[global] Instance ExcClass_eq_dec : EqDecision ExcClass.
Proof. solve_decision. Defined.

(** Objects whose [repr] ends up in an exception's arguments. *)
Inductive ObjRef :=
| SubscriberObj (self : nat)
| SubscriberImplObj.

Inductive ExcArg :=
| ArgStr (s : string)
| ArgInt (n : Z)
| ArgRepr (o : ObjRef).

(** An exception instance: its class, its arguments, [__cause__] (set by
    [raise ... from ...]) and [__context__] (set when raised while another
    exception is being handled). *)
Inductive Exception :=
| mkException (cls : ExcClass) (args : list ExcArg)
              (cause context : option Exception).

Definition exc_class (e : Exception) : ExcClass :=
  match e with mkException c _ _ _ => c end.
Definition exc_args (e : Exception) : list ExcArg :=
  match e with mkException _ a _ _ => a end.
Definition exc_cause (e : Exception) : option Exception :=
  match e with mkException _ _ c _ => c end.
Definition exc_context (e : Exception) : option Exception :=
  match e with mkException _ _ _ c => c end.

(** [cls(args)], not chained to anything. *)
Definition new_exception (cls : ExcClass) (args : list ExcArg) : Exception :=
  mkException cls args None None.

(** [raise e from cause] *)
Definition raise_from (e cause : Exception) : Exception :=
  mkException (exc_class e) (exc_args e) (Some cause) (exc_context e).

(** [raise e] inside [except ... :] handling [handled] *)
Definition raise_while_handling (e handled : Exception) : Exception :=
  mkException (exc_class e) (exc_args e) (exc_cause e) (Some handled).

(** Modelled from the spec: the class declarations of [._error] and of
    [pyuavcan.transport] are not part of the sources at hand.  The closed
    error of the presentation layer is a kind of the transport layer's
    resource-closed error; no other class here has a base besides
    [Exception]. *)
Definition issubclass (c base : ExcClass) : bool :=
  bool_decide (c = base)
  || (bool_decide (c = PresentationSessionClosedError)
      && bool_decide (base = ResourceClosedError)).

Definition isinstance (e : Exception) (base : ExcClass) : bool :=
  issubclass (exc_class e) base.

Inductive Result (A : Type) :=
| Ok (a : A)
| Raise (e : Exception).
Arguments Ok {A} a.
Arguments Raise {A} e.

(** ** Messages, transfers and the queue *)

(** A deserialized DSDL object; opaque here. *)
Inductive Message := MessageObj (id : nat).

(** [pyuavcan.transport.TransferFrom], reduced to the field this module
    reads. *)
Record TransferFrom := { fragmented_payload : list (list Byte.byte) }.

Definition Item : Type := Message * TransferFrom.

(** [asyncio.Queue], of which the module uses [put_nowait], [get_nowait] and
    [get].  [maxsize <= 0] means unlimited. *)
Module Queue.

Record t := mk { maxsize : Z; items : list Item }.

Definition new (maxsize : Z) : t := mk maxsize [].

Definition qsize (q : t) : Z := Z.of_nat (length (items q)).

Definition empty (q : t) : bool :=
    match items q with [] => true | _ :: _ => false end.

Definition full (q : t) : bool :=
    if maxsize q <=? 0 then false else maxsize q <=? qsize q.

Definition put_nowait (item : Item) (q : t) : Result t :=
    if full q then Raise (new_exception QueueFull [])
    else Ok (mk (maxsize q) (items q ++ [item])).

Definition get_nowait (q : t) : Result (Item * t) :=
    match items q with
    | [] => Raise (new_exception QueueEmpty [])
    | item :: rest => Ok (item, mk (maxsize q) rest)
    end.

End Queue.

(** ** _Listener *)

Record _Listener := mkListener {
  queue : Queue.t;
  push_count : Z;
  overrun_count : Z;
  exception : option Exception
}.

(** [_Listener(queue)]: the dataclass defaults. *)
Definition new_listener (q : Queue.t) : _Listener := mkListener q 0 0 None.

Definition set_queue (q : Queue.t) (l : _Listener) : _Listener :=
  mkListener q (push_count l) (overrun_count l) (exception l).
Definition set_push_count (n : Z) (l : _Listener) : _Listener :=
  mkListener (queue l) n (overrun_count l) (exception l).
Definition set_overrun_count (n : Z) (l : _Listener) : _Listener :=
  mkListener (queue l) (push_count l) n (exception l).
Definition set_exception (e : option Exception) (l : _Listener) : _Listener :=
  mkListener (queue l) (push_count l) (overrun_count l) e.

(** [_Listener.push] *)
Definition push (message : Message) (transfer : TransferFrom)
    (self : _Listener) : Result _Listener :=
  match Queue.put_nowait (message, transfer) (queue self) with
  | Ok q => Ok (set_push_count (push_count self + 1) (set_queue q self))
  | Raise e =>
      if isinstance e QueueFull
      then Ok (set_overrun_count (overrun_count self + 1) self)
      else Raise e
  end.

(** A run of [push] calls, one per item, nothing else in between. *)
Fixpoint push_all (pushed : list Item) (self : _Listener) : Result _Listener :=
  match pushed with
  | [] => Ok self
  | (message, transfer) :: rest =>
      match push message transfer self with
      | Ok self' => push_all rest self'
      | Raise e => Raise e
      end
  end.

(** What can happen to one listener: the receiver's task pushes into it and
    finally stores the terminal failure; its subscriber takes items out. *)
Inductive ListenerOp :=
| OpPush (message : Message) (transfer : TransferFrom)
| OpGet
| OpFail (e : Exception).

Definition listener_op (op : ListenerOp) (self : _Listener) : Result _Listener :=
  match op with
  | OpPush message transfer => push message transfer self
  | OpGet =>
      match Queue.get_nowait (queue self) with
      | Ok (_, q) => Ok (set_queue q self)
      | Raise _ => Ok self
      end
  | OpFail e => Ok (set_exception (Some e) self)
  end.

Fixpoint listener_ops (ops : list ListenerOp) (self : _Listener) : Result _Listener :=
  match ops with
  | [] => Ok self
  | op :: rest =>
      match listener_op op self with
      | Ok self' => listener_ops rest self'
      | Raise e => Raise e
      end
  end.

Definition is_push (op : ListenerOp) : bool :=
  match op with OpPush _ _ => true | _ => false end.

Definition count_pushes (ops : list ListenerOp) : Z :=
  Z.of_nat (length (List.filter is_push ops)).

(** ** Tasks, the log and the objects of the module *)

(** An [asyncio.Task].  A task cancelled before its first step never runs
    its coroutine's body and ends [Cancelled]; a coroutine that returns
    leaves its task [Finished]. *)
Inductive TaskState := Pending | Suspended | Finished | Cancelled.

Record Task := mkTask { task_state : TaskState; must_cancel : bool }.

Definition task_done (t : Task) : bool :=
  match task_state t with Finished | Cancelled => true | _ => false end.

Inductive LogLevel := DEBUG | INFO | ERROR.

Record LogRecord := mkLog { log_level : LogLevel; log_format : string }.

(** The finalizer is the registry's callback; all that matters of it here
    is whether a call returns or raises.  The calls are recorded in the
    world. *)
Record TypedSessionFinalizer := { finalizer_raises : option Exception }.

(** [SubscriberImpl]: [transport_session] (the address of the input
    session), [deserialization_failure_count], [_finalizer], [_task],
    [_listeners], [_closed].  The listeners are addresses into the store of
    the world: the same objects the subscribers hold. *)
Record SubscriberImpl := mkImpl {
  impl_transport_session : nat;
  impl_deserialization_failure_count : Z;
  impl_finalizer : TypedSessionFinalizer;
  impl_task : nat;
  impl_listeners : list nat;
  impl_closed : bool
}.

(** [Subscriber]: [_closed], [_maybe_task], [_rx]; [_impl] is the one
    receiver of the world. *)
Record Subscriber := mkSubscriber {
  sub_closed : bool;
  sub_maybe_task : option nat;
  sub_rx : nat
}.

Record World := mkWorld {
  listeners : list _Listener;
  subscribers : list Subscriber;
  tasks : list Task;
  impl : SubscriberImpl;
  finalized : list (list nat);
  log : list LogRecord
}.

Definition set_listeners (f : list _Listener -> list _Listener) (w : World) : World :=
  mkWorld (f (listeners w)) (subscribers w) (tasks w) (impl w) (finalized w) (log w).
Definition set_subscribers (f : list Subscriber -> list Subscriber) (w : World) : World :=
  mkWorld (listeners w) (f (subscribers w)) (tasks w) (impl w) (finalized w) (log w).
Definition set_tasks (f : list Task -> list Task) (w : World) : World :=
  mkWorld (listeners w) (subscribers w) (f (tasks w)) (impl w) (finalized w) (log w).
Definition set_impl (f : SubscriberImpl -> SubscriberImpl) (w : World) : World :=
  mkWorld (listeners w) (subscribers w) (tasks w) (f (impl w)) (finalized w) (log w).
Definition set_finalized (f : list (list nat) -> list (list nat)) (w : World) : World :=
  mkWorld (listeners w) (subscribers w) (tasks w) (impl w) (f (finalized w)) (log w).
Definition set_log (f : list LogRecord -> list LogRecord) (w : World) : World :=
  mkWorld (listeners w) (subscribers w) (tasks w) (impl w) (finalized w) (f (log w)).

Definition set_impl_closed (b : bool) (i : SubscriberImpl) : SubscriberImpl :=
  mkImpl (impl_transport_session i) (impl_deserialization_failure_count i)
         (impl_finalizer i) (impl_task i) (impl_listeners i) b.
Definition set_impl_listeners (ls : list nat) (i : SubscriberImpl) : SubscriberImpl :=
  mkImpl (impl_transport_session i) (impl_deserialization_failure_count i)
         (impl_finalizer i) (impl_task i) ls (impl_closed i).
Definition set_impl_failures (n : Z) (i : SubscriberImpl) : SubscriberImpl :=
  mkImpl (impl_transport_session i) n
         (impl_finalizer i) (impl_task i) (impl_listeners i) (impl_closed i).

Definition set_sub_closed (b : bool) (s : Subscriber) : Subscriber :=
  mkSubscriber b (sub_maybe_task s) (sub_rx s).
Definition set_sub_maybe_task (t : option nat) (s : Subscriber) : Subscriber :=
  mkSubscriber (sub_closed s) t (sub_rx s).

(** ** The monad of synchronous code *)

Definition Py (A : Type) : Type := World -> Result A * World.

#[global] Instance Py_ret : MRet Py := fun A a w => (Ok a, w).

#[global] Instance Py_bind : MBind Py := fun A B k m w =>
  match m w with
  | (Ok a, w') => k a w'
  | (Raise e, w') => (Raise e, w')
  end.

(** [x = m; k], written [let* x := m in k]. *)
Definition bind {A B : Type} (m : Py A) (k : A -> Py B) : Py B := mbind k m.

Notation "'let*' x := m 'in' k" := (bind m (fun x => k))
  (at level 10, x name, m at level 100, k at level 200).

Definition raise {A : Type} (e : Exception) : Py A := fun w => (Raise e, w).

Definition gets {A : Type} (f : World -> A) : Py A := fun w => (Ok (f w), w).

Definition modify (f : World -> World) : Py unit := fun w => (Ok tt, f w).

Definition from_result {A : Type} (r : Result A) : Py A := fun w => (r, w).

(** [try: body  except Exception as ex: handler ex]; a handler that does not
    match re-raises. *)
Definition try_except {A : Type} (body : Py A) (handler : Exception -> Py A) : Py A :=
  fun w =>
    match body w with
    | (Ok a, w') => (Ok a, w')
    | (Raise ex, w') => handler ex w'
    end.

(** [for x in xs: body x] *)
Fixpoint for_each {A : Type} (xs : list A) (body : A -> Py unit) : Py unit :=
  match xs with
  | [] => mret tt
  | x :: rest => body x;; for_each rest body
  end.

(** [_logger.debug/info/exception(format, ...)] *)
Definition _logger (level : LogLevel) (format : string) : Py unit :=
  modify (set_log (fun records => records ++ [mkLog level format])).

(** [loop.create_task(coroutine)] *)
Definition create_task : Py nat :=
  fun w => (Ok (length (tasks w)),
            set_tasks (fun ts => ts ++ [mkTask Pending false]) w).

(** [task.cancel()]: refused by a task that is done, else the request is
    recorded and delivered at the task's next step. *)
Definition Task_cancel (task : nat) : Py bool :=
  fun w =>
    match tasks w !! task with
    | Some t =>
        if task_done t then (Ok false, w)
        else (Ok true, set_tasks (fun ts => <[task := mkTask (task_state t) true]> ts) w)
    | None => (Ok false, w)
    end.

(** A method of the listener at address [rx], run in place.  An address
    that holds no object is left alone. *)
Definition on_listener (rx : nat) (method : _Listener -> Result _Listener) : Py unit :=
  fun w =>
    match listeners w !! rx with
    | Some l =>
        match method l with
        | Ok l' => (Ok tt, set_listeners (fun ls => <[rx := l']> ls) w)
        | Raise e => (Raise e, w)
        end
    | None => (Ok tt, w)
    end.

(** [self._listeners.remove(rx)]: the first occurrence goes, [ValueError] if
    there is none.  Two listeners are equal only if they are the same
    object, since each has a queue of its own and queues compare by
    identity. *)
Fixpoint list_remove (rx : nat) (l : list nat) : Result (list nat) :=
  match l with
  | [] => Raise (new_exception ValueError [ArgStr "list.remove(x): x not in list"])
  | x :: rest =>
      if bool_decide (x = rx) then Ok rest
      else match list_remove rx rest with
           | Ok rest' => Ok (x :: rest')
           | Raise e => Raise e
           end
  end.

(** [_RECEIVE_TIMEOUT = 1] *)
Definition _RECEIVE_TIMEOUT : float := 1%float.

(** ** SubscriberImpl *)

(** How [await self.transport_session.receive_until(...)] comes back to the
    task: with no transfer, with a transfer (and then what
    [pyuavcan.dsdl.deserialize] makes of its payload), or with an exception
    raised at the [await], [CancelledError] among them. *)
Inductive Received :=
| ReceivedNone
| ReceivedTransfer (transfer : TransferFrom) (deserialized : Result (option Message))
| ReceiveRaised (ex : Exception).

(** Where a step of a coroutine leaves it. *)
Inductive Step (A W : Type) :=
| Return (a : A)
| Await (wait : W).
Arguments Return {A W} a.
Arguments Await {A W} wait.

Module SubscriberImpl.

  (** [PresentationSessionClosedError(repr(self))] *)
Definition closed_error : Exception :=
    new_exception PresentationSessionClosedError [ArgRepr SubscriberImplObj].

  (** [__init__]: the world of a new receiver, its task created and not
      yet run. *)
Definition __init__ (transport_session : nat) (finalizer : TypedSessionFinalizer)
      : World :=
    mkWorld [] [] [mkTask Pending false]
            (mkImpl transport_session 0 finalizer 0%nat [] false) [] [].

Definition _raise_if_closed : Py unit :=
    let* closed := gets (fun w => impl_closed (impl w)) in
    if closed then raise closed_error else mret tt.

Definition close : Py unit :=
    modify (set_impl (set_impl_closed true));;
    try_except
      (let* task := gets (fun w => impl_task (impl w)) in Task_cancel task;; mret tt)
      (fun ex => _logger DEBUG "Explicit close: could not cancel the task %r: %s").

Definition add_listener (rx : nat) : Py unit :=
    _raise_if_closed;;
    modify (set_impl (fun i => set_impl_listeners (impl_listeners i ++ [rx]) i)).

Definition remove_listener (rx : nat) : Py unit :=
    try_except
      (let* ls := gets (fun w => impl_listeners (impl w)) in
       ls' ← from_result (list_remove rx ls);
       modify (set_impl (set_impl_listeners ls')))
      (fun ex =>
         if isinstance ex ValueError
         then _logger ERROR "%r does not have listener %r"
         else raise ex);;
    let* ls := gets (fun w => impl_listeners (impl w)) in
    let* closed := gets (fun w => impl_closed (impl w)) in
    if bool_decide (length ls = 0%nat) && negb closed then
      modify (set_impl (set_impl_closed true));;
      try_except
        (let* task := gets (fun w => impl_task (impl w)) in Task_cancel task;; mret tt)
        (fun ex => _logger DEBUG "Listener removal: could not cancel the task %r: %s")
    else mret tt.

  (** [self._finalizer([self.transport_session])] *)
Definition call_finalizer : Py unit :=
    let* session := gets (fun w => impl_transport_session (impl w)) in
    modify (set_finalized (fun calls => calls ++ [[session]]));;
    let* raises := gets (fun w => finalizer_raises (impl_finalizer (impl w))) in
    match raises with
    | Some ex => raise ex
    | None => mret tt
    end.

  (** The statements of one turn of the loop that follow the [await]. *)
Definition loop_body (received : Received) : Py unit :=
    match received with
    | ReceiveRaised ex => raise ex
    | ReceivedNone => mret tt
    | ReceivedTransfer transfer deserialized =>
        let* message := from_result deserialized in
        match message with
        | Some message =>
            let* ls := gets (fun w => impl_listeners (impl w)) in
            for_each ls (fun rx => on_listener rx (push message transfer))
        | None =>
            modify (set_impl (fun i =>
              set_impl_failures (impl_deserialization_failure_count i + 1) i))
        end
    end.

  (** The two [except] clauses of the loop's [try]; the value is the local
      [exception] afterwards. *)
Definition loop_handlers (ex : Exception) : Py (option Exception) :=
    if isinstance ex CancelledError then
      _logger INFO "Cancelling the subscriber task of %s";;
      mret None
    else
      _logger ERROR "Fatal error in the subscriber task of %s: %s";;
      mret (Some ex).

  (** What follows the loop's [try] statement, entered with the local
      [exception]. *)
Definition after_loop (exception : option Exception) : Py unit :=
    exception ← try_except
      (modify (set_impl (set_impl_closed true));;
       call_finalizer;;
       mret exception)
      (fun ex =>
         _logger ERROR "Failed to finalize %s: %s";;
         mret (Some ex));
    let exception := match exception with
                     | Some ex => ex
                     | None => closed_error
                     end in
    let* ls := gets (fun w => impl_listeners (impl w)) in
    for_each ls (fun rx => on_listener rx (fun l => Ok (set_exception (Some exception) l))).

  (** The loop left with the given [exception], or suspended at its
      [await]. *)
Inductive LoopExit :=
  | LoopLeft (exception : option Exception)
  | LoopAwaits.

  (** The test of [while not self._closed:] *)
Definition loop_test : Py LoopExit :=
    let* closed := gets (fun w => impl_closed (impl w)) in
    mret (if closed then LoopLeft None else LoopAwaits).

Definition leave_or_await (exit : LoopExit) : Py (Step unit unit) :=
    match exit with
    | LoopAwaits => mret (Await tt)
    | LoopLeft exception => after_loop exception;; mret (Return tt)
    end.

  (** [_task_function], from its first statement to the first [await] (or
      to its end). *)
Definition _task_function : Py (Step unit unit) :=
    let* exit := try_except loop_test (fun ex => let* exception := loop_handlers ex in mret (LoopLeft exception)) in
    leave_or_await exit.

  (** [_task_function], resumed at the [await] of the loop, to the next
      [await] (or to its end). *)
Definition resume__task_function (received : Received) : Py (Step unit unit) :=
    exit ← try_except (loop_body received;; loop_test)
                      (fun ex => let* exception := loop_handlers ex in mret (LoopLeft exception));
    leave_or_await exit.

End SubscriberImpl.

(** ** Subscriber *)

(** [await asyncio.wait_for(self._rx.queue.get(), timeout, loop=self._loop)]:
    what a suspended receive call waits for. *)
Inductive Wait := WaitForGet (rx : nat) (timeout : float).

(** How that [await] comes back: an item has become available to [get], or
    an exception is raised at the [await] ([TimeoutError] when the time is
    up, [CancelledError] when the caller is cancelled). *)
Inductive Waited :=
| GetReady
| WaitRaised (ex : Exception).

Module Subscriber.

  (** The object at [self].  An address that holds no subscriber reads as a
      closed handle. *)
Definition this (self : nat) (w : World) : Subscriber :=
    default (mkSubscriber true None 0%nat) (subscribers w !! self).

Definition update (self : nat) (f : Subscriber -> Subscriber) : Py unit :=
    modify (set_subscribers (alter f self)).

  (** [PresentationSessionClosedError(repr(self))] *)
Definition closed_error (self : nat) : Exception :=
    new_exception PresentationSessionClosedError [ArgRepr (SubscriberObj self)].

  (** [__init__(impl, loop, queue_capacity)]; the value is the address of
      the new subscriber. *)
Definition __init__ (queue_capacity : option Z) : Py nat :=
    let* queue_capacity :=
      match queue_capacity with
      | None => mret 0
      | Some queue_capacity =>
          if queue_capacity <? 1
          then raise (new_exception ValueError
                        [ArgStr "Invalid queue capacity: "; ArgInt queue_capacity])
          else mret queue_capacity
      end in
    let* rx := gets (fun w => length (listeners w)) in
    modify (set_listeners (fun ls => ls ++ [new_listener (Queue.new queue_capacity)]));;
    let* self := gets (fun w => length (subscribers w)) in
    modify (set_subscribers (fun ss => ss ++ [mkSubscriber false None rx]));;
    SubscriberImpl.add_listener rx;;
    mret self.

  (** [receive_in_background(handler)].  The new task runs [receive] and the
      handler in turn; its steps are receive calls of this subscriber. *)
Definition receive_in_background (self : nat) : Py unit :=
    let* maybe_task := gets (fun w => sub_maybe_task (this self w)) in
    match maybe_task with
    | Some task => Task_cancel task;; mret tt
    | None => mret tt
    end;;
    let* task := create_task in
    update self (set_sub_maybe_task (Some task)).

Definition _raise_if_closed_or_failed (self : nat) : Py unit :=
    let* closed := gets (fun w => sub_closed (this self w)) in
    if closed then raise (closed_error self)
    else
      let* exception :=
        gets (fun w => listeners w !! sub_rx (this self w) ≫= exception) in
      match exception with
      | Some exception =>
          update self (set_sub_closed true);;
          raise (raise_from exception
                   (new_exception RuntimeError
                      [ArgStr "The subscriber has failed and been closed"]))
      | None => mret tt
      end.

  (** [self._rx.queue.get_nowait()] *)
Definition get_nowait (rx : nat) : Py Item :=
    fun w =>
      match listeners w !! rx with
      | Some l =>
          match Queue.get_nowait (queue l) with
          | Ok (item, q) => (Ok item, set_listeners (fun ls => <[rx := set_queue q l]> ls) w)
          | Raise ex => (Raise ex, w)
          end
      | None => (Raise (new_exception QueueEmpty []), w)
      end.

  (** The [except] clauses of [receive_for]. *)
Definition receive_for_handlers (ex : Exception)
      : Py (Step (option Item) Wait) :=
    if isinstance ex QueueEmpty then mret (Return None)
    else if isinstance ex TimeoutError then mret (Return None)
    else raise ex.

  (** [receive_for(timeout)], to its end or to its [await].  The two
      assertions of the [else] clause are about the types of the item, which
      hold of every [Item]. *)
Definition receive_for (timeout : float) (self : nat) : Py (Step (option Item) Wait) :=
    _raise_if_closed_or_failed self;;
    let* rx := gets (fun w => sub_rx (this self w)) in
    if (0 <? timeout)%float then
      mret (Await (WaitForGet rx timeout))
    else
      try_except
        (let* item := get_nowait rx in mret (Return (Some item)))
        receive_for_handlers.

  (** [receive_for(timeout)], resumed at its [await].  [get] hands over the
      head of the queue; while the queue is empty it keeps waiting. *)
Definition resume_receive_for (timeout : float) (waited : Waited) (self : nat)
      : Py (Step (option Item) Wait) :=
    let* rx := gets (fun w => sub_rx (this self w)) in
    match waited with
    | GetReady =>
        let* empty := gets (fun w =>
          from_option (fun l => Queue.empty (queue l)) true (listeners w !! rx)) in
        if empty then mret (Await (WaitForGet rx timeout))
        else try_except
               (let* item := get_nowait rx in mret (Return (Some item)))
               receive_for_handlers
    | WaitRaised ex => try_except (raise ex) receive_for_handlers
    end.

  (** [receive_until(monotonic_deadline)]; [now] is [self._loop.time()]. *)
Definition receive_until (monotonic_deadline now : float) (self : nat)
      : Py (Step (option Item) Wait) :=
    receive_for (monotonic_deadline - now)%float self.

  (** One turn of [while True:] in [receive], given where the receive_for
      call of this turn stands; [again] is the next turn. *)
Definition receive_turn (again : Py (option (Step Item Wait)))
      (out : Step (option Item) Wait) : Py (option (Step Item Wait)) :=
    match out with
    | Await wait => mret (Some (Await wait))
    | Return (Some out) => mret (Some (Return out))
    | Return None => again
    end.

  (** [receive()], to its end or to the [await] of a receive_for call.
      The loop has no bound of its own: [fuel] bounds the turns taken
      without suspending, and the value is [None] when it runs out. *)
Fixpoint receive (fuel : nat) (self : nat) : Py (option (Step Item Wait)) :=
    match fuel with
    | O => mret None
    | S fuel =>
        let* out := receive_for _RECEIVE_TIMEOUT self in
        receive_turn (receive fuel self) out
    end.

  (** [receive()], resumed at that [await]. *)
Definition resume_receive (fuel : nat) (waited : Waited) (self : nat)
      : Py (option (Step Item Wait)) :=
    let* out := resume_receive_for _RECEIVE_TIMEOUT waited self in
    receive_turn (receive fuel self) out.

  (** The [except] clause of [__anext__]. *)
Definition __anext___handlers {A : Type} (ex : Exception) : Py A :=
    if isinstance ex ResourceClosedError
    then raise (raise_while_handling (new_exception StopAsyncIteration []) ex)
    else raise ex.

  (** [__aiter__] returns [self] unchanged. *)
Definition __aiter__ (self : nat) : Py nat := mret self.

Definition __anext__ (fuel : nat) (self : nat) : Py (option (Step Item Wait)) :=
    try_except (receive fuel self) __anext___handlers.

Definition resume___anext__ (fuel : nat) (waited : Waited) (self : nat)
      : Py (option (Step Item Wait)) :=
    try_except (resume_receive fuel waited self) __anext___handlers.

Definition close (self : nat) : Py unit :=
    let* closed := gets (fun w => sub_closed (this self w)) in
    if negb closed then
      update self (set_sub_closed true);;
      let* rx := gets (fun w => sub_rx (this self w)) in
      SubscriberImpl.remove_listener rx;;
      let* maybe_task := gets (fun w => sub_maybe_task (this self w)) in
      match maybe_task with
      | Some task =>
          try_except
            (Task_cancel task;; mret tt)
            (fun ex => _logger ERROR "%s task could not be cancelled: %s");;
          update self (set_sub_maybe_task None)
      | None => mret tt
      end
    else mret tt.

Definition __del__ (self : nat) : Py unit :=
    let* closed := gets (fun w => sub_closed (this self w)) in
    if negb closed then
      _logger INFO "%s has not been disposed of properly; fixing";;
      update self (set_sub_closed true);;
      let* rx := gets (fun w => sub_rx (this self w)) in
      SubscriberImpl.remove_listener rx
    else mret tt.

End Subscriber.

(** ** The event loop *)

(** The receiver's task is given a step.  Before its first step a cancelled
    task is dropped without running; otherwise the coroutine runs from its
    start, or from its [await] with what was received, and the task is
    suspended again or finished.  A pending cancellation is delivered by
    the step. *)
Definition task_step (received : Received) (w : World) : World :=
  let task := impl_task (impl w) in
  let settle (r : Result (Step unit unit) * World) : World :=
    match r with
    | (Ok (Await _), w') => set_tasks (fun ts => <[task := mkTask Suspended false]> ts) w'
    | (_, w') => set_tasks (fun ts => <[task := mkTask Finished false]> ts) w'
    end in
  match tasks w !! task with
  | Some (mkTask Pending true) =>
      set_tasks (fun ts => <[task := mkTask Cancelled false]> ts) w
  | Some (mkTask Pending false) => settle (SubscriberImpl._task_function w)
  | Some (mkTask Suspended _) => settle (SubscriberImpl.resume__task_function received w)
  | _ => w
  end.

(** What the program and the loop can do to a world. *)
Inductive Event :=
| TaskStep (received : Received)
| ImplClose
| AddListener (rx : nat)
| RemoveListener (rx : nat)
| NewSubscriber (queue_capacity : option Z)
| ReceiveInBackground (self : nat)
| ReceiveFor (timeout : float) (self : nat)
| ResumeReceiveFor (timeout : float) (waited : Waited) (self : nat)
| Receive (self : nat)
| ResumeReceive (waited : Waited) (self : nat)
| Anext (self : nat)
| ResumeAnext (waited : Waited) (self : nat)
| Close (self : nat)
| Del (self : nat).

Definition step (ev : Event) (w : World) : World :=
  match ev with
  | TaskStep received => task_step received w
  | ImplClose => (SubscriberImpl.close w).2
  | AddListener rx => (SubscriberImpl.add_listener rx w).2
  | RemoveListener rx => (SubscriberImpl.remove_listener rx w).2
  | NewSubscriber queue_capacity => (Subscriber.__init__ queue_capacity w).2
  | ReceiveInBackground self => (Subscriber.receive_in_background self w).2
  | ReceiveFor timeout self => (Subscriber.receive_for timeout self w).2
  | ResumeReceiveFor timeout waited self =>
      (Subscriber.resume_receive_for timeout waited self w).2
  | Receive self => (Subscriber.receive 1 self w).2
  | ResumeReceive waited self => (Subscriber.resume_receive 1 waited self w).2
  | Anext self => (Subscriber.__anext__ 1 self w).2
  | ResumeAnext waited self => (Subscriber.resume___anext__ 1 waited self w).2
  | Close self => (Subscriber.close self w).2
  | Del self => (Subscriber.__del__ self w).2
  end.

Fixpoint run (evs : list Event) (w : World) : World :=
  match evs with
  | [] => w
  | ev :: rest => run rest (step ev w)
  end.

(** ** Auxiliary definitions of the proofs *)

Ltac py_unfold :=
  unfold _logger in *;
  unfold bind, mbind, Py_bind, mret, Py_ret, gets, modify, raise, from_result,
    try_except in *.

(** The world after [task.cancel()]. *)
Definition cancelled (task : nat) (w : World) : World := (Task_cancel task w).2.

(** [remove_listener], computed: the removal (or the log record of its
    failure), then the shutdown if the list is empty and the receiver open. *)
Definition removal (rx : nat) (w : World) : World :=
  match list_remove rx (impl_listeners (impl w)) with
  | Ok ls => set_impl (set_impl_listeners ls) w
  | Raise _ => set_log (fun records =>
                 records ++ [mkLog ERROR "%r does not have listener %r"]) w
  end.

Definition shutdown_if_unused (w : World) : World :=
  if bool_decide (length (impl_listeners (impl w)) = 0%nat) && negb (impl_closed (impl w))
  then cancelled (impl_task (impl w)) (set_impl (set_impl_closed true) w)
  else w.



(** What [__anext__] makes of the way the receive call ends. *)
Definition anext_of (r : Result (option (Step Item Wait)) * World)
    : Result (option (Step Item Wait)) * World :=
  match r with
  | (Ok out, w') => (Ok out, w')
  | (Raise ex, w') =>
      if isinstance ex ResourceClosedError
      then (Raise (raise_while_handling (new_exception StopAsyncIteration []) ex), w')
      else (Raise ex, w')
  end.

(** [Subscriber.close], computed. *)
Definition closing (self : nat) (w : World) : World :=
  let s := Subscriber.this self w in
  if sub_closed s then w
  else
    let detached :=
      shutdown_if_unused
        (removal (sub_rx s) (set_subscribers (alter (set_sub_closed true) self) w)) in
    match sub_maybe_task s with
    | Some task =>
        set_subscribers (alter (set_sub_maybe_task None) self) (cancelled task detached)
    | None => detached
    end.

(** A computation keeps a relation between the world before and after. *)
Definition preserves {A : Type} (R : World -> World -> Prop) (m : Py A) : Prop :=
  forall w, R w (m w).2.

(** One listener, before and after: the counters have not gone down and a
    terminal failure has not gone away. *)
Definition listener_le (l l' : _Listener) : Prop :=
  push_count l <= push_count l'
  /\ overrun_count l <= overrun_count l'
  /\ (is_Some (exception l) -> is_Some (exception l')).

(** Every listener of the world before is still there after, and has only
    grown. *)
Definition listeners_grow (w w' : World) : Prop :=
  forall rx l, listeners w !! rx = Some l ->
    exists l', listeners w' !! rx = Some l' /\ listener_le l l'.

(** What is left alone by everything but the steps of the receiver's task:
    the calls made to the finalizer, the identity of the receiver's task,
    session and finalizer, a closed flag that is set, and the state of
    every task (a cancellation may have been requested). *)
Definition quiet (w w' : World) : Prop :=
  finalized w' = finalized w
  /\ impl_task (impl w') = impl_task (impl w)
  /\ impl_transport_session (impl w') = impl_transport_session (impl w)
  /\ impl_finalizer (impl w') = impl_finalizer (impl w)
  /\ (impl_closed (impl w) = true -> impl_closed (impl w') = true)
  /\ (forall i t, tasks w !! i = Some t ->
        exists mc, tasks w' !! i = Some (mkTask (task_state t) mc)).

(** The fault that makes the loop of the task end: an exception raised at
    the [await] or by the deserialization, unless it is a cancellation. *)
Definition triggering_fault (received : Received) : option Exception :=
  match received with
  | ReceiveRaised ex | ReceivedTransfer _ (Raise ex) =>
      if isinstance ex CancelledError then None else Some ex
  | _ => None
  end.

(** The terminal failure the task hands to the listeners when it ends with
    the given fault: what the finalizer raised if it raised, else the
    fault, else the closed error. *)
Definition terminal_failure (w : World) (fault : option Exception) : Exception :=
  match finalizer_raises (impl_finalizer (impl w)) with
  | Some ex => ex
  | None =>
      match fault with
      | Some ex => ex
      | None => SubscriberImpl.closed_error
      end
  end.

(** The task has ended between [w] and [w'], with the given fault. *)
Definition exit_of (w : World) (fault : option Exception) (w' : World) : Prop :=
  impl_closed (impl w') = true
  /\ finalized w' = finalized w ++ [[impl_transport_session (impl w)]]
  /\ (forall rx l', rx ∈ impl_listeners (impl w') ->
        listeners w' !! rx = Some l' ->
        exception l' = Some (terminal_failure w fault))
  /\ (forall rx l, listeners w !! rx = Some l ->
        exists l', listeners w' !! rx = Some l').

(** The finalizer has been called once, with the session, if the task has
    run to its end, and not at all otherwise. *)
Definition finalized_once (w : World) : Prop :=
  exists t,
    tasks w !! impl_task (impl w) = Some t
    /\ match task_state t with
       | Finished =>
           finalized w = [[impl_transport_session (impl w)]]
           /\ impl_closed (impl w) = true
       | _ => finalized w = []
       end.

(** ** Worlds of the examples *)

Definition returning : TypedSessionFinalizer := {| finalizer_raises := None |}.

(** A new receiver on session 7, then with one and with two subscribers of
    capacity 2. *)
Definition world0 : World := SubscriberImpl.__init__ 7%nat returning.
Definition world1 : World := run [NewSubscriber (Some 2)] world0.
Definition world2 : World := run [NewSubscriber (Some 2)] world1.

(** A transfer that deserializes to a message, and a fault of the
    transport. *)
Definition transfer1 : TransferFrom := {| fragmented_payload := [[Byte.x01]] |}.
Definition message1 : Message := MessageObj 1.
Definition transport_fault : Exception :=
  new_exception (UserException "TransportError") [].

(** [world1] after the task has started and delivered one message, and
    after it has started and met the fault. *)
Definition world1_delivered : World :=
  run [TaskStep ReceivedNone;
       TaskStep (ReceivedTransfer transfer1 (Ok (Some message1)))] world1.

(** ** The listener: pushes, overruns and counters *)

Lemma isinstance_QueueFull :
  isinstance (new_exception QueueFull []) QueueFull = true.
Proof. reflexivity. Qed.

Lemma push_not_full message transfer (self : _Listener) :
  Queue.full (queue self) = false ->
  push message transfer self =
    Ok (mkListener (Queue.mk (Queue.maxsize (queue self))
                             (Queue.items (queue self) ++ [(message, transfer)]))
                   (push_count self + 1) (overrun_count self) (exception self)).
Proof. intros H. unfold push, Queue.put_nowait. now rewrite H. Qed.

Lemma push_full message transfer (self : _Listener) :
  Queue.full (queue self) = true ->
  push message transfer self =
    Ok (mkListener (queue self) (push_count self) (overrun_count self + 1)
                   (exception self)).
Proof. intros H. unfold push, Queue.put_nowait. now rewrite H. Qed.

Lemma push_returns message transfer (self : _Listener) :
  exists self', push message transfer self = Ok self'.
Proof.
  destruct (Queue.full (queue self)) eqn:H.
  - rewrite push_full by done. eauto.
  - rewrite push_not_full by done. eauto.
Qed.

Lemma full_spec (q : Queue.t) :
  0 < Queue.maxsize q ->
  Queue.full q = bool_decide (Queue.maxsize q <= Z.of_nat (length (Queue.items q))).
Proof.
  intros H. unfold Queue.full, Queue.qsize.
  destruct (Z.leb_spec (Queue.maxsize q) 0); [lia|].
  destruct (Z.leb_spec (Queue.maxsize q) (Z.of_nat (length (Queue.items q))));
    symmetry; [apply bool_decide_eq_true_2 | apply bool_decide_eq_false_2]; lia.
Qed.

Lemma Ok_listener_eq q q' p p' o o' (e e' : option Exception) :
  q = q' -> p = p' -> o = o' -> e = e' ->
  Ok (mkListener q p o e) = Ok (mkListener q' p' o' e').
Proof. now intros -> -> -> ->. Qed.

(** A run of pushes into a bounded queue with [room] places left: the queue
    takes that many items, the counters share the run. *)
Lemma push_all_bounded (pushed : list Item) : forall (self : _Listener) (room : nat),
  0 < Queue.maxsize (queue self) ->
  Z.of_nat (length (Queue.items (queue self))) + Z.of_nat room
    = Queue.maxsize (queue self) ->
  push_all pushed self =
    Ok (mkListener
          (Queue.mk (Queue.maxsize (queue self))
                    (Queue.items (queue self) ++ take room pushed))
          (push_count self + Z.of_nat (length (take room pushed)))
          (overrun_count self + Z.of_nat (length (drop room pushed)))
          (exception self)).
Proof.
  induction pushed as [|[message transfer] rest IH]; intros self room Hcap Hroom.
  - rewrite take_nil, drop_nil, app_nil_r. cbn [push_all length Z.of_nat].
    rewrite !Z.add_0_r. now destruct self as [[] ? ? ?].
  - cbn [push_all].
    destruct (Queue.full (queue self)) eqn:Hfull.
    + rewrite push_full by done.
      rewrite full_spec in Hfull by done. apply bool_decide_eq_true_1 in Hfull.
      assert (room = 0%nat) as -> by lia.
      rewrite (IH _ 0%nat) by (cbn; lia).
      rewrite !take_0, !drop_0.
      cbn [queue push_count overrun_count exception length].
      apply Ok_listener_eq; [reflexivity | lia | lia | reflexivity].
    + rewrite push_not_full by done.
      rewrite full_spec in Hfull by done. apply bool_decide_eq_false_1 in Hfull.
      destruct room as [|room]; [lia|].
      rewrite (IH _ room);
        cbn [queue push_count overrun_count exception Queue.maxsize Queue.items];
        rewrite ?length_app; cbn [length]; try lia.
      rewrite firstn_cons, skipn_cons, <- app_assoc. cbn [app length].
      apply Ok_listener_eq; [reflexivity | lia | lia | reflexivity].
Qed.

(** C2.  A push onto a queue that is not full enqueues the item at the tail
    and adds one to [push_count]; a push onto a full queue leaves the queue
    as it is and adds one to [overrun_count]; a queue of capacity [C >= 1] is
    full exactly when it holds [C] items or more.  So [M > C] pushes in a row
    into the listener a subscriber is built with leave the first [C] items
    in the queue, [push_count = C] and [overrun_count = M - C]. *)
Theorem push_overrun_invariant (C : Z) (pushed : list Item) :
  1 <= C ->
  C < Z.of_nat (length pushed) ->
  (forall q, Queue.maxsize q = C ->
     (Queue.full q = true <-> C <= Z.of_nat (length (Queue.items q))))
  /\ (forall message transfer self,
        Queue.maxsize (queue self) = C ->
        Queue.full (queue self) = false ->
        push message transfer self =
          Ok (mkListener
                (Queue.mk C (Queue.items (queue self) ++ [(message, transfer)]))
                (push_count self + 1) (overrun_count self) (exception self)))
  /\ (forall message transfer self,
        Queue.maxsize (queue self) = C ->
        Queue.full (queue self) = true ->
        push message transfer self =
          Ok (mkListener (queue self) (push_count self) (overrun_count self + 1)
                         (exception self)))
  /\ exists self',
       push_all pushed (new_listener (Queue.new C)) = Ok self'
       /\ Queue.items (queue self') = take (Z.to_nat C) pushed
       /\ push_count self' = C
       /\ overrun_count self' = Z.of_nat (length pushed) - C.
Proof.
  intros HC HM. repeat split.
  - intros Hfull. rewrite full_spec in Hfull by lia.
    apply bool_decide_eq_true_1 in Hfull. lia.
  - intros Hlen. rewrite full_spec by lia. apply bool_decide_eq_true_2. lia.
  - intros message transfer self <- Hfull. now apply push_not_full.
  - intros message transfer self _ Hfull. now apply push_full.
  - eexists. split.
    + apply (push_all_bounded pushed _ (Z.to_nat C)); cbn; lia.
    + cbn [queue push_count overrun_count Queue.items new_listener Queue.new app].
      rewrite length_take, length_drop. repeat split; lia.
Qed.

Lemma push_overrun_invariant_witness :
  let m1 := (MessageObj 1, Build_TransferFrom []) in
  let m2 := (MessageObj 2, Build_TransferFrom []) in
  let m3 := (MessageObj 3, Build_TransferFrom []) in
  exists self',
    push_all [m1; m2; m3] (new_listener (Queue.new 2)) = Ok self'
    /\ Queue.items (queue self') = [m1; m2]
    /\ push_count self' = 2
    /\ overrun_count self' = 1.
Proof.
  intros m1 m2 m3.
  destruct (push_overrun_invariant 2 [m1; m2; m3]) as (_ & _ & _ & H);
    [lia | cbn; lia | exact H].
Defined.

(** C10.  A push adds one to exactly one of the two counters: to
    [push_count] when the item goes into the queue, to [overrun_count] when
    the queue stays as it is.  So whatever is done to a listener, the two
    counters grow together by the number of pushes among the operations,
    and from a new listener they sum to that number. *)
Theorem push_counts_every_call :
  (forall message transfer self, exists self',
     push message transfer self = Ok self'
     /\ ((push_count self' = push_count self + 1
          /\ overrun_count self' = overrun_count self
          /\ Queue.items (queue self')
             = Queue.items (queue self) ++ [(message, transfer)])
         \/ (push_count self' = push_count self
             /\ overrun_count self' = overrun_count self + 1
             /\ queue self' = queue self)))
  /\ (forall ops self, exists self',
        listener_ops ops self = Ok self'
        /\ push_count self' + overrun_count self'
           = push_count self + overrun_count self + count_pushes ops)
  /\ (forall ops q, exists self',
        listener_ops ops (new_listener q) = Ok self'
        /\ push_count self' + overrun_count self' = count_pushes ops).
Proof.
  assert (Hpush : forall message transfer self, exists self',
     push message transfer self = Ok self'
     /\ ((push_count self' = push_count self + 1
          /\ overrun_count self' = overrun_count self
          /\ Queue.items (queue self')
             = Queue.items (queue self) ++ [(message, transfer)])
         \/ (push_count self' = push_count self
             /\ overrun_count self' = overrun_count self + 1
             /\ queue self' = queue self))).
  { intros message transfer self.
    destruct (Queue.full (queue self)) eqn:Hfull.
    - rewrite push_full by done. eexists. split; [reflexivity|]. right. now cbn.
    - rewrite push_not_full by done. eexists. split; [reflexivity|]. left. now cbn. }
  assert (Hops : forall ops self, exists self',
        listener_ops ops self = Ok self'
        /\ push_count self' + overrun_count self'
           = push_count self + overrun_count self + count_pushes ops).
  { induction ops as [|op rest IH]; intros self.
    - exists self. unfold count_pushes. cbn. split; [done | lia].
    - cbn [listener_ops].
      assert (exists mid, listener_op op self = Ok mid
                /\ push_count mid + overrun_count mid
                   = push_count self + overrun_count self
                     + (if is_push op then 1 else 0)) as (mid & -> & Hmid).
      { destruct op as [message transfer| |e]; cbn [listener_op is_push].
        - destruct (Hpush message transfer self) as (mid & -> & Hmid).
          exists mid. split; [done | lia].
        - destruct (Queue.get_nowait (queue self)) as [[item q]|ex];
            eexists; (split; [reflexivity | cbn; lia]).
        - eexists. split; [reflexivity | cbn; lia]. }
      destruct (IH mid) as (self' & -> & Hself').
      exists self'. split; [done|].
      unfold count_pushes in *. cbn [List.filter].
      destruct (is_push op); cbn [length]; lia. }
  split; [exact Hpush | split; [exact Hops |]].
  intros ops q. destruct (Hops ops (new_listener q)) as (self' & -> & H).
  exists self'. split; [done|]. cbn in H. lia.
Qed.

(** ** The receiver: registration of listeners *)

Lemma isinstance_new cls args : isinstance (new_exception cls args) cls = true.
Proof.
  unfold isinstance, issubclass. cbn. now rewrite bool_decide_eq_true_2.
Qed.

Lemma list_remove_Ok rx ls ls' :
  list_remove rx ls = Ok ls' <->
  exists before after,
    ls = before ++ rx :: after /\ (rx ∉ before) /\ ls' = before ++ after.
Proof.
  revert ls'. induction ls as [|x rest IH]; intros ls'; cbn.
  - split; [discriminate|]. intros ([|? ?] & after & H & _); discriminate.
  - case_bool_decide as Hx.
    + subst x. split.
      * intros [= <-]. exists [], rest. repeat split. apply not_elem_of_nil.
      * intros ([|y before] & after & H & Hnot & ->); cbn in *.
        -- now injection H as ->.
        -- injection H as -> _. exfalso. apply Hnot. left.
    + destruct (list_remove rx rest) as [rest'|e] eqn:Hrest.
      * split.
        -- intros [= <-]. destruct (proj1 (IH rest') eq_refl)
             as (before & after & -> & Hnot & ->).
           exists (x :: before), after. repeat split.
           intros Hin. apply elem_of_cons in Hin as [->|Hin]; [done | tauto].
        -- intros ([|y before] & after & H & Hnot & ->); cbn in *.
           ++ injection H as -> _. done.
           ++ injection H as -> ->. f_equal. f_equal.
              assert (Ok rest' = Ok (before ++ after)) as [= ->]; [|done].
              apply IH. exists before, after. repeat split.
              intros Hin. apply Hnot. now right.
      * split; [discriminate|].
        intros ([|y before] & after & H & Hnot & ->); cbn in *.
        -- injection H as -> _. done.
        -- injection H as -> ->.
           assert (Raise e = Ok (before ++ after)) as Habs; [|discriminate].
           apply IH. exists before, after. repeat split.
           intros Hin. apply Hnot. now right.
Qed.

Lemma list_remove_Raise rx ls :
  rx ∉ ls <->
  list_remove rx ls = Raise (new_exception ValueError [ArgStr "list.remove(x): x not in list"]).
Proof.
  induction ls as [|x rest IH]; cbn.
  - split; [done|]. intros _. apply not_elem_of_nil.
  - case_bool_decide as Hx.
    + subst x. split; [|discriminate]. intros H. exfalso. apply H. left.
    + rewrite not_elem_of_cons. destruct (list_remove rx rest) as [rest'|e].
      * split; [|discriminate]. intros [_ H]. apply IH in H. discriminate.
      * split.
        -- intros [_ H]. apply IH in H. now rewrite H.
        -- intros [= ->]. split; [congruence|]. now apply IH.
Qed.

Lemma list_remove_Raise_eq rx ls e :
  list_remove rx ls = Raise e ->
  e = new_exception ValueError [ArgStr "list.remove(x): x not in list"].
Proof.
  induction ls as [|x rest IH]; cbn; [now intros [= <-]|].
  case_bool_decide; [discriminate|].
  destruct (list_remove rx rest); [discriminate|]. intros [= <-]. now apply IH.
Qed.

Lemma Task_cancel_returns task w : exists b, Task_cancel task w = (Ok b, cancelled task w).
Proof.
  unfold cancelled, Task_cancel.
  destruct (tasks w !! task) as [t|]; [destruct (task_done t)|]; eauto.
Qed.

Lemma remove_listener_eq rx w :
  SubscriberImpl.remove_listener rx w = (Ok tt, shutdown_if_unused (removal rx w)).
Proof.
  unfold SubscriberImpl.remove_listener, shutdown_if_unused, removal. py_unfold.
  destruct (list_remove rx (impl_listeners (impl w))) as [ls|e] eqn:Hrm.
  - destruct (bool_decide _ && negb _); [|done].
    destruct (Task_cancel_returns
                (impl_task (impl (set_impl (set_impl_closed true)
                   (set_impl (set_impl_listeners ls) w))))
                (set_impl (set_impl_closed true) (set_impl (set_impl_listeners ls) w)))
      as [b Hb]. cbn in *. now rewrite Hb.
  - apply list_remove_Raise_eq in Hrm as ->.
    rewrite isinstance_new. cbn.
    destruct (bool_decide _ && negb _); [|done].
    match goal with |- context [Task_cancel ?t ?w'] =>
      destruct (Task_cancel_returns t w') as [b Hb] end.
    cbn in *. now rewrite Hb.
Qed.

Lemma cancelled_frame task w :
  listeners (cancelled task w) = listeners w
  /\ subscribers (cancelled task w) = subscribers w
  /\ impl (cancelled task w) = impl w
  /\ finalized (cancelled task w) = finalized w
  /\ log (cancelled task w) = log w.
Proof.
  unfold cancelled, Task_cancel.
  destruct (tasks w !! task) as [t|]; [destruct (task_done t)|]; now cbn.
Qed.

Lemma cancelled_task task w t :
  tasks w !! task = Some t ->
  task_done t = false ->
  tasks (cancelled task w) !! task = Some (mkTask (task_state t) true).
Proof.
  intros Ht Hdone. unfold cancelled, Task_cancel. rewrite Ht, Hdone. cbn.
  apply list_lookup_insert_eq. now apply lookup_lt_Some in Ht.
Qed.

Lemma cancelled_task_done task w t :
  tasks w !! task = Some t ->
  task_done t = true ->
  cancelled task w = w.
Proof. intros Ht Hdone. unfold cancelled, Task_cancel. now rewrite Ht, Hdone. Qed.

(** C5.  [add_listener] raises the closed error on a closed receiver and
    leaves it as it was; on an open one it appends the listener.
    [remove_listener] always returns: a registered listener loses its first
    entry and nothing is logged, an absent one costs one log record and
    nothing else.  When the list is empty afterwards and the receiver was
    open, the same call sets the closed flag and requests the cancellation
    of the task; a receiver that was closed stays so and its task is not
    touched. *)
Theorem add_remove_listener (rx : nat) (w : World) :
  (impl_closed (impl w) = true ->
     SubscriberImpl.add_listener rx w
       = (Raise (new_exception PresentationSessionClosedError
                   [ArgRepr SubscriberImplObj]), w))
  /\ (impl_closed (impl w) = false ->
      SubscriberImpl.add_listener rx w
        = (Ok tt, set_impl (set_impl_listeners (impl_listeners (impl w) ++ [rx])) w))
  /\ exists w',
       SubscriberImpl.remove_listener rx w = (Ok tt, w')
       /\ (rx ∈ impl_listeners (impl w) ->
           log w' = log w
           /\ exists before after,
                impl_listeners (impl w) = before ++ rx :: after
                /\ (rx ∉ before)
                /\ impl_listeners (impl w') = before ++ after)
       /\ (rx ∉ impl_listeners (impl w) ->
           impl_listeners (impl w') = impl_listeners (impl w)
           /\ log w' = log w ++ [mkLog ERROR "%r does not have listener %r"])
       /\ (impl_listeners (impl w') = [] ->
           impl_closed (impl w) = false ->
           impl_closed (impl w') = true
           /\ forall t, tasks w !! impl_task (impl w) = Some t ->
                        task_done t = false ->
                        tasks w' !! impl_task (impl w')
                          = Some (mkTask (task_state t) true))
       /\ (impl_closed (impl w) = true ->
           impl_closed (impl w') = true /\ tasks w' = tasks w).
Proof.
  split; [|split].
  - intros H. unfold SubscriberImpl.add_listener, SubscriberImpl._raise_if_closed.
    py_unfold. now rewrite H.
  - intros H. unfold SubscriberImpl.add_listener, SubscriberImpl._raise_if_closed.
    py_unfold. now rewrite H.
  - eexists. split; [apply remove_listener_eq|].
    unfold removal.
    destruct (list_remove rx (impl_listeners (impl w))) as [ls|e] eqn:Hrm.
    + pose proof (proj1 (list_remove_Ok _ _ _) Hrm)
        as (before & after & Hls & Hnot & ->).
      assert (rx ∈ impl_listeners (impl w)) as Hin
        by (rewrite Hls; apply elem_of_app; right; left).
      unfold shutdown_if_unused. cbn.
      destruct (impl_closed (impl w)) eqn:Hclosed;
        rewrite ?andb_false_r; cbn [negb]; rewrite ?andb_true_r.
      * repeat split; try done; eauto 7.
      * case_bool_decide as Hempty.
        -- destruct (cancelled_frame (impl_task (impl w))
             (set_impl (set_impl_closed true)
                (set_impl (set_impl_listeners (before ++ after)) w)))
             as (_ & _ & Himpl & _ & Hlog).
           cbn in Himpl, Hlog. rewrite Himpl, Hlog. cbn.
           repeat split; try done; eauto 7.
           intros t Ht Hdone. now apply cancelled_task.
        -- repeat split; try done; eauto 7; exfalso; cbn in *;
             match goal with H : _ = [] |- _ => rewrite H in Hempty end; done.
    + apply list_remove_Raise_eq in Hrm as He. subst e.
      apply list_remove_Raise in Hrm.
      unfold shutdown_if_unused. cbn.
      destruct (impl_closed (impl w)) eqn:Hclosed;
        rewrite ?andb_false_r; cbn [negb]; rewrite ?andb_true_r.
      * repeat split; try done.
      * case_bool_decide as Hempty.
        -- destruct (cancelled_frame (impl_task (impl w))
             (set_impl (set_impl_closed true)
                (set_log (fun records =>
                   records ++ [mkLog ERROR "%r does not have listener %r"]) w)))
             as (_ & _ & Himpl & _ & Hlog).
           cbn in Himpl, Hlog. rewrite Himpl, Hlog. cbn.
           repeat split; try done.
           intros t Ht Hdone. now apply cancelled_task.
        -- repeat split; try done; exfalso; cbn in *;
             match goal with H : _ = [] |- _ => rewrite H in Hempty end; done.
Qed.

(** ** The subscriber: construction *)

Lemma put_nowait_unbounded item (q : Queue.t) :
  Queue.maxsize q <= 0 ->
  Queue.put_nowait item q = Ok (Queue.mk (Queue.maxsize q) (Queue.items q ++ [item])).
Proof.
  intros H. unfold Queue.put_nowait, Queue.full.
  destruct (Z.leb_spec (Queue.maxsize q) 0); [done | lia].
Qed.

Lemma put_nowait_bounded item (q : Queue.t) :
  0 < Queue.maxsize q ->
  Queue.put_nowait item q =
    if bool_decide (Queue.maxsize q <= Z.of_nat (length (Queue.items q)))
    then Raise (new_exception QueueFull [])
    else Ok (Queue.mk (Queue.maxsize q) (Queue.items q ++ [item])).
Proof. intros H. unfold Queue.put_nowait. now rewrite full_spec. Qed.

Lemma __init___open (capacity : Z) (w : World) :
  impl_closed (impl w) = false ->
  (Subscriber.__init__ None w).1 = Ok (length (subscribers w))
  /\ (1 <= capacity ->
      Subscriber.__init__ (Some capacity) w =
        (Ok (length (subscribers w)),
         set_impl (set_impl_listeners (impl_listeners (impl w) ++ [length (listeners w)]))
           (set_subscribers (fun ss => ss ++ [mkSubscriber false None (length (listeners w))])
              (set_listeners (fun ls => ls ++ [new_listener (Queue.new capacity)]) w))))
  /\ (Subscriber.__init__ None w).2 =
       set_impl (set_impl_listeners (impl_listeners (impl w) ++ [length (listeners w)]))
         (set_subscribers (fun ss => ss ++ [mkSubscriber false None (length (listeners w))])
            (set_listeners (fun ls => ls ++ [new_listener (Queue.new 0)]) w)).
Proof.
  intros Hopen.
  unfold Subscriber.__init__, SubscriberImpl.add_listener, SubscriberImpl._raise_if_closed.
  py_unfold. cbn. rewrite Hopen. repeat split.
  intros Hcap. destruct (Z.ltb_spec capacity 1); [lia|]. cbn. now rewrite Hopen.
Qed.

(** C6, as the code has it.  On an open receiver a capacity [N >= 1] builds
    a listener whose queue has [maxsize = N], which refuses an item exactly
    when it holds [N] or more; no capacity ([None]) builds one with
    [maxsize = 0], which never refuses an item.  A capacity below one, zero
    included, raises [ValueError] and builds nothing. *)
Theorem queue_capacity_at_construction (w : World) :
  (forall N, 1 <= N -> impl_closed (impl w) = false ->
     exists self w' l,
       Subscriber.__init__ (Some N) w = (Ok self, w')
       /\ subscribers w' !! self = Some (mkSubscriber false None (length (listeners w)))
       /\ listeners w' !! length (listeners w) = Some l
       /\ l = new_listener (Queue.new N)
       /\ Queue.maxsize (queue l) = N
       /\ forall item (q : Queue.t), Queue.maxsize q = N ->
            Queue.put_nowait item q =
              if bool_decide (N <= Z.of_nat (length (Queue.items q)))
              then Raise (new_exception QueueFull [])
              else Ok (Queue.mk N (Queue.items q ++ [item])))
  /\ (impl_closed (impl w) = false ->
      exists self w' l,
        Subscriber.__init__ None w = (Ok self, w')
        /\ subscribers w' !! self = Some (mkSubscriber false None (length (listeners w)))
        /\ listeners w' !! length (listeners w) = Some l
        /\ l = new_listener (Queue.new 0)
        /\ forall item (q : Queue.t), Queue.maxsize q = 0 ->
             Queue.put_nowait item q = Ok (Queue.mk 0 (Queue.items q ++ [item])))
  /\ (forall N, N < 1 ->
      Subscriber.__init__ (Some N) w =
        (Raise (new_exception ValueError [ArgStr "Invalid queue capacity: "; ArgInt N]), w)).
Proof.
  split; [|split].
  - intros N HN Hopen.
    destruct (__init___open N w Hopen) as (_ & H & _). specialize (H HN).
    eexists _, _, _. split; [exact H|]. cbn.
    split; [apply list_lookup_middle; done|].
    split; [apply list_lookup_middle; done|].
    split; [done|]. split; [done|].
    intros item q <-. now rewrite put_nowait_bounded by lia.
  - intros Hopen.
    destruct (__init___open 1 w Hopen) as (H1 & _ & H2).
    eexists _, _, _. split.
    { rewrite (surjective_pairing (Subscriber.__init__ None w)), H1, H2. reflexivity. }
    cbn.
    split; [apply list_lookup_middle; done|].
    split; [apply list_lookup_middle; done|].
    split; [done|].
    intros item q Hq. rewrite put_nowait_unbounded by lia. now rewrite Hq.
  - intros N HN. unfold Subscriber.__init__. py_unfold.
    destruct (Z.ltb_spec N 1); [done | lia].
Qed.

Lemma queue_capacity_at_construction_witness :
  exists self w' l,
    Subscriber.__init__ (Some 2) world0 = (Ok self, w')
    /\ listeners w' !! 0%nat = Some l
    /\ Queue.maxsize (queue l) = 2.
Proof.
  destruct (queue_capacity_at_construction world0) as (H & _ & _).
  destruct (H 2) as (self & w' & l & Hinit & _ & Hl & _ & Hmax & _);
    [lia | reflexivity |].
  exists self, w', l. auto.
Defined.

(** C6, as stated, fails for a capacity of zero: the constructor raises
    [ValueError], no subscriber and no queue come out of it. *)
Lemma zero_capacity_is_rejected :
  ~ (exists self w' l,
       Subscriber.__init__ (Some 0) world0 = (Ok self, w')
       /\ listeners w' !! sub_rx (Subscriber.this self w') = Some l
       /\ Queue.maxsize (queue l) <= 0)
  /\ Subscriber.__init__ (Some 0) world0
     = (Raise (new_exception ValueError [ArgStr "Invalid queue capacity: "; ArgInt 0]),
        world0).
Proof.
  split; [|reflexivity].
  intros (self & w' & l & H & _). discriminate H.
Qed.

Lemma add_remove_listener_witness :
  exists w',
    SubscriberImpl.remove_listener 0%nat world1 = (Ok tt, w')
    /\ impl_listeners (impl w') = []
    /\ impl_closed (impl w') = true
    /\ tasks w' !! 0%nat = Some (mkTask Pending true).
Proof.
  destruct (add_remove_listener 0%nat world1)
    as (_ & _ & w' & Hrm & Hin & _ & Hshut & _).
  assert (w' = (SubscriberImpl.remove_listener 0%nat world1).2) as Hw'
    by now rewrite Hrm.
  exists w'. split; [exact Hrm|].
  assert (impl_listeners (impl w') = []) as Hempty by (rewrite Hw'; reflexivity).
  destruct (Hshut Hempty eq_refl) as [Hclosed Htask].
  split; [exact Hempty|]. split; [exact Hclosed|].
  specialize (Htask (mkTask Pending false) eq_refl eq_refl).
  rewrite Hw' in Htask |- *. exact Htask.
Defined.

(** ** The subscriber: receiving *)

Lemma this_lookup self w s :
  subscribers w !! self = Some s -> Subscriber.this self w = s.
Proof. intros H. unfold Subscriber.this. now rewrite H. Qed.


(** The failure a subscriber raises when it finds its listener failed. *)
Lemma _raise_if_closed_or_failed_eq self w :
  Subscriber._raise_if_closed_or_failed self w =
    if sub_closed (Subscriber.this self w)
    then (Raise (Subscriber.closed_error self), w)
    else match listeners w !! sub_rx (Subscriber.this self w) ≫= exception with
         | Some ex =>
             (Raise (raise_from ex (new_exception RuntimeError
                       [ArgStr "The subscriber has failed and been closed"])),
              set_subscribers (alter (set_sub_closed true) self) w)
         | None => (Ok tt, w)
         end.
Proof.
  unfold Subscriber._raise_if_closed_or_failed, Subscriber.update. py_unfold.
  destruct (sub_closed (Subscriber.this self w)); [done|].
  now destruct (option_bind _ _ _ _).
Qed.




(** ** The subscriber: terminal failure *)

Lemma receive_for_raises timeout self w ex w' :
  Subscriber._raise_if_closed_or_failed self w = (Raise ex, w') ->
  Subscriber.receive_for timeout self w = (Raise ex, w').
Proof. intros H. unfold Subscriber.receive_for. py_unfold. now rewrite H. Qed.

Lemma receive_raises fuel self w ex w' :
  Subscriber._raise_if_closed_or_failed self w = (Raise ex, w') ->
  Subscriber.receive (S fuel) self w = (Raise ex, w').
Proof.
  intros H. cbn [Subscriber.receive]. unfold bind, mbind, Py_bind.
  now rewrite (receive_for_raises _ _ _ _ _ H).
Qed.

Lemma closed_subscriber_raises self w :
  sub_closed (Subscriber.this self w) = true ->
  Subscriber._raise_if_closed_or_failed self w = (Raise (Subscriber.closed_error self), w).
Proof. intros H. now rewrite _raise_if_closed_or_failed_eq, H. Qed.




(** ** The subscriber: iteration *)

(** [receive] never runs out of fuel once it has one turn: a receive_for
    call with the positive [_RECEIVE_TIMEOUT] raises or suspends. *)
Lemma receive_first_turn fuel self w :
  (exists ex w', Subscriber.receive (S fuel) self w = (Raise ex, w'))
  \/ (exists wait w', Subscriber.receive (S fuel) self w = (Ok (Some (Await wait)), w')).
Proof.
  cbn [Subscriber.receive]. unfold Subscriber.receive_for. py_unfold.
  destruct (Subscriber._raise_if_closed_or_failed self w) as [[[]|ex] w'] eqn:Hpre.
  - right. change (0 <? _RECEIVE_TIMEOUT)%float with true. cbn. eauto.
  - left. eauto.
Qed.

Lemma receive_returns fuel self w :
  (Subscriber.receive (S fuel) self w).1 <> Ok None.
Proof.
  destruct (receive_first_turn fuel self w) as [(ex & w' & ->)|(wait & w' & ->)];
    discriminate.
Qed.

Lemma resume_receive_returns fuel waited self w :
  (Subscriber.resume_receive (S fuel) waited self w).1 <> Ok None.
Proof.
  unfold Subscriber.resume_receive, bind, mbind, Py_bind.
  destruct (Subscriber.resume_receive_for _RECEIVE_TIMEOUT waited self w)
    as [[[[out|]|wait]|ex] w']; try discriminate.
  unfold Subscriber.receive_turn. apply receive_returns.
Qed.

(** C7.  [__anext__] returns what [receive] returns and suspends where it
    suspends; when [receive] raises an instance of [ResourceClosedError] (the
    closed error of a subscriber is one) it raises [StopAsyncIteration]
    instead, and it raises every other exception as it is.  With a turn of
    fuel neither call runs out.  So on a closed subscriber the iteration
    stops. *)
Theorem anext_stops_on_closed_error
    (fuel : nat) (waited : Waited) (self : nat) (w : World) :
  Subscriber.__anext__ fuel self w = anext_of (Subscriber.receive fuel self w)
  /\ Subscriber.resume___anext__ fuel waited self w
     = anext_of (Subscriber.resume_receive fuel waited self w)
  /\ (Subscriber.receive (S fuel) self w).1 <> Ok None
  /\ (Subscriber.resume_receive (S fuel) waited self w).1 <> Ok None
  /\ (forall ex w', isinstance ex ResourceClosedError = true ->
        anext_of (Raise ex, w')
        = (Raise (mkException StopAsyncIteration [] None (Some ex)), w'))
  /\ (forall ex w', isinstance ex ResourceClosedError = false ->
        anext_of (Raise ex, w') = (Raise ex, w'))
  /\ (forall out w', anext_of (Ok out, w') = (Ok out, w'))
  /\ isinstance (Subscriber.closed_error self) ResourceClosedError = true
  /\ (sub_closed (Subscriber.this self w) = true ->
      Subscriber.__anext__ (S fuel) self w
      = (Raise (mkException StopAsyncIteration [] None
                  (Some (Subscriber.closed_error self))), w)).
Proof.
  assert (Hwrap : forall m : Py (option (Step Item Wait)),
            try_except m Subscriber.__anext___handlers w = anext_of (m w)).
  { intros m. unfold try_except, anext_of, Subscriber.__anext___handlers.
    destruct (m w) as [[out|ex] w']; [done|].
    now destruct (isinstance ex ResourceClosedError). }
  split; [apply Hwrap|]. split; [apply Hwrap|].
  split; [apply receive_returns|]. split; [apply resume_receive_returns|].
  split; [|split; [|split; [|split]]].
  - intros ex w' H. unfold anext_of. now rewrite H.
  - intros ex w' H. unfold anext_of. now rewrite H.
  - done.
  - done.
  - intros Hclosed. unfold Subscriber.__anext__. rewrite Hwrap.
    now rewrite (receive_raises _ _ _ _ _ (closed_subscriber_raises _ _ Hclosed)).
Qed.

Lemma anext_stops_on_closed_error_witness :
  let closed := (Subscriber.close 0%nat world1).2 in
  Subscriber.__anext__ 1 0%nat closed
  = (Raise (mkException StopAsyncIteration [] None
              (Some (Subscriber.closed_error 0%nat))), closed).
Proof.
  intros closed.
  destruct (anext_stops_on_closed_error 0 GetReady 0%nat closed)
    as (_ & _ & _ & _ & _ & _ & _ & _ & H).
  apply H. reflexivity.
Defined.

(** ** The subscriber: closing *)

Lemma removal_frame rx w :
  listeners (removal rx w) = listeners w
  /\ subscribers (removal rx w) = subscribers w
  /\ tasks (removal rx w) = tasks w
  /\ finalized (removal rx w) = finalized w
  /\ impl_closed (impl (removal rx w)) = impl_closed (impl w)
  /\ impl_task (impl (removal rx w)) = impl_task (impl w).
Proof.
  unfold removal. now destruct (list_remove rx (impl_listeners (impl w))).
Qed.

Lemma shutdown_if_unused_frame w :
  listeners (shutdown_if_unused w) = listeners w
  /\ subscribers (shutdown_if_unused w) = subscribers w
  /\ finalized (shutdown_if_unused w) = finalized w
  /\ log (shutdown_if_unused w) = log w
  /\ impl_listeners (impl (shutdown_if_unused w)) = impl_listeners (impl w)
  /\ impl_task (impl (shutdown_if_unused w)) = impl_task (impl w).
Proof.
  unfold shutdown_if_unused.
  destruct (bool_decide _ && negb _); [|done].
  destruct (cancelled_frame (impl_task (impl w)) (set_impl (set_impl_closed true) w))
    as (-> & -> & -> & -> & ->). done.
Qed.

Lemma cancelled_keeps_state task w i t :
  tasks w !! i = Some t ->
  exists mc, tasks (cancelled task w) !! i = Some (mkTask (task_state t) mc).
Proof.
  intros Hi. unfold cancelled, Task_cancel.
  destruct (tasks w !! task) as [t'|] eqn:Ht; [destruct (task_done t')|]; cbn.
  - exists (must_cancel t). rewrite Hi. now destruct t.
  - destruct (decide (task = i)) as [->|Hne].
    + rewrite list_lookup_insert_eq by now apply lookup_lt_Some in Hi.
      exists true. congruence.
    + rewrite list_lookup_insert_ne by done.
      exists (must_cancel t). rewrite Hi. now destruct t.
  - exists (must_cancel t). rewrite Hi. now destruct t.
Qed.

Lemma shutdown_if_unused_keeps_state w i t :
  tasks w !! i = Some t ->
  exists mc, tasks (shutdown_if_unused w) !! i = Some (mkTask (task_state t) mc).
Proof.
  intros Hi. unfold shutdown_if_unused.
  destruct (bool_decide _ && negb _).
  - now apply cancelled_keeps_state.
  - exists (must_cancel t). rewrite Hi. now destruct t.
Qed.

Lemma this_alter self f w s :
  subscribers w !! self = Some s ->
  Subscriber.this self (set_subscribers (alter f self) w) = f s.
Proof.
  intros Hs. unfold Subscriber.this. cbn.
  rewrite list_lookup_alter, Hs. now destruct (decide (self = self)).
Qed.

Lemma close_eq self w : Subscriber.close self w = (Ok tt, closing self w).
Proof.
  unfold Subscriber.close, closing, Subscriber.update. py_unfold.
  destruct (sub_closed (Subscriber.this self w)) eqn:Hclosed; [done|]. cbn.
  destruct (subscribers w !! self) as [s|] eqn:Hs.
  2:{ unfold Subscriber.this in Hclosed. now rewrite Hs in Hclosed. }
  rewrite (this_lookup _ _ _ Hs) in *.
  rewrite (this_alter _ _ _ _ Hs). cbn [sub_rx set_sub_closed].
  rewrite remove_listener_eq.
  set (w1 := set_subscribers (alter (set_sub_closed true) self) w).
  assert (Hsub : subscribers (shutdown_if_unused (removal (sub_rx s) w1))
                 = subscribers w1).
  { destruct (shutdown_if_unused_frame (removal (sub_rx s) w1)) as (_ & -> & _).
    now destruct (removal_frame (sub_rx s) w1) as (_ & -> & _). }
  assert (Hthis : Subscriber.this self (shutdown_if_unused (removal (sub_rx s) w1))
                  = set_sub_closed true s).
  { unfold Subscriber.this. rewrite Hsub. apply (this_alter _ _ _ _ Hs). }
  rewrite Hthis. cbn [sub_maybe_task set_sub_closed].
  destruct (sub_maybe_task s) as [task|]; [|done].
  destruct (Task_cancel_returns task (shutdown_if_unused (removal (sub_rx s) w1)))
    as [b Hb]. now rewrite Hb.
Qed.

Lemma closing_open self w s :
  subscribers w !! self = Some s ->
  sub_closed s = false ->
  subscribers (closing self w) !! self = Some (mkSubscriber true None (sub_rx s))
  /\ listeners (closing self w) = listeners w
  /\ impl (closing self w) = impl (shutdown_if_unused (removal (sub_rx s) w))
  /\ finalized (closing self w) = finalized w
  /\ forall task t, sub_maybe_task s = Some task ->
       tasks w !! task = Some t -> task_done t = false ->
       tasks (closing self w) !! task = Some (mkTask (task_state t) true).
Proof.
  intros Hs Hopen. unfold closing. rewrite (this_lookup _ _ _ Hs), Hopen.
  set (w1 := set_subscribers (alter (set_sub_closed true) self) w).
  set (detached := shutdown_if_unused (removal (sub_rx s) w1)).
  assert (Hsub : subscribers detached = alter (set_sub_closed true) self (subscribers w)).
  { unfold detached.
    destruct (shutdown_if_unused_frame (removal (sub_rx s) w1)) as (_ & -> & _).
    now destruct (removal_frame (sub_rx s) w1) as (_ & -> & _). }
  assert (Hls : listeners detached = listeners w).
  { unfold detached.
    destruct (shutdown_if_unused_frame (removal (sub_rx s) w1)) as (-> & _).
    now destruct (removal_frame (sub_rx s) w1) as (-> & _). }
  assert (Hfin : finalized detached = finalized w).
  { unfold detached.
    destruct (shutdown_if_unused_frame (removal (sub_rx s) w1)) as (_ & _ & -> & _).
    now destruct (removal_frame (sub_rx s) w1) as (_ & _ & _ & -> & _). }
  assert (Himpl : impl detached = impl (shutdown_if_unused (removal (sub_rx s) w))).
  { unfold detached, shutdown_if_unused, removal, w1. cbn.
    destruct (list_remove (sub_rx s) (impl_listeners (impl w))); cbn;
      destruct (bool_decide _ && negb _); cbn; try done.
    all: match goal with |- impl (cancelled ?t ?a) = impl (cancelled ?t' ?b) =>
           destruct (cancelled_frame t a) as (_ & _ & -> & _);
           destruct (cancelled_frame t' b) as (_ & _ & -> & _) end; done. }
  assert (Hlook : alter (set_sub_closed true) self (subscribers w) !! self
                  = Some (set_sub_closed true s)).
  { rewrite list_lookup_alter, Hs. now destruct (decide (self = self)). }
  destruct (sub_maybe_task s) as [task|] eqn:Htask.
  - destruct (cancelled_frame task detached) as (Hl & Hsb & Hi & Hf & _).
    cbn. rewrite Hsb, Hsub, Hl, Hi, Hf, Hls, Hfin, Himpl.
    split.
    { rewrite list_lookup_alter, Hlook. now destruct (decide (self = self)). }
    repeat split; try done.
    intros task' t [= <-] Ht Hdone.
    assert (exists mc, tasks detached !! task = Some (mkTask (task_state t) mc))
      as [mc Hmc].
    { unfold detached. apply shutdown_if_unused_keeps_state.
      now destruct (removal_frame (sub_rx s) w1) as (_ & _ & -> & _). }
    rewrite (cancelled_task _ _ _ Hmc); [done|].
    unfold task_done in *. cbn. exact Hdone.
  - rewrite Hsub, Hls, Hfin, Himpl. split.
    { rewrite Hlook. unfold set_sub_closed. now rewrite Htask. }
    repeat split; try done.
Qed.

Lemma closing_closed self w :
  sub_closed (Subscriber.this self (closing self w)) = true.
Proof.
  destruct (sub_closed (Subscriber.this self w)) eqn:Hclosed.
  - unfold closing. now rewrite Hclosed.
  - destruct (subscribers w !! self) as [s|] eqn:Hs.
    + rewrite (this_lookup _ _ _ Hs) in Hclosed.
      destruct (closing_open _ _ _ Hs Hclosed) as (H & _).
      now rewrite (this_lookup _ _ _ H).
    + unfold Subscriber.this in Hclosed. now rewrite Hs in Hclosed.
Qed.

(** C8.  [Subscriber.close] always returns.  On an open subscriber it sets
    the closed flag, takes the first entry of its listener out of the
    receiver's list (shutting the receiver down if the list is then empty),
    requests the cancellation of the handler task if there is one, without
    a step of that task being run, and forgets the task; the listener
    object itself is not touched.  On a closed subscriber it changes
    nothing, so a second call changes nothing. *)
Theorem close_is_idempotent (self : nat) (w : World) :
  (exists w', Subscriber.close self w = (Ok tt, w')
     /\ Subscriber.close self w' = (Ok tt, w'))
  /\ (sub_closed (Subscriber.this self w) = true ->
      Subscriber.close self w = (Ok tt, w))
  /\ (forall s,
        subscribers w !! self = Some s ->
        sub_closed s = false ->
        exists w',
          Subscriber.close self w = (Ok tt, w')
          /\ subscribers w' !! self = Some (mkSubscriber true None (sub_rx s))
          /\ listeners w' = listeners w
          /\ impl w' = (SubscriberImpl.remove_listener (sub_rx s) w).2.(impl)
          /\ (sub_rx s ∈ impl_listeners (impl w) ->
              exists before after,
                impl_listeners (impl w) = before ++ sub_rx s :: after
                /\ (sub_rx s ∉ before)
                /\ impl_listeners (impl w') = before ++ after)
          /\ (forall task t,
                sub_maybe_task s = Some task ->
                tasks w !! task = Some t ->
                task_done t = false ->
                tasks w' !! task = Some (mkTask (task_state t) true))).
Proof.
  split; [|split].
  - exists (closing self w). split; [apply close_eq|].
    rewrite close_eq. f_equal. unfold closing at 1. now rewrite closing_closed.
  - intros Hclosed. rewrite close_eq. unfold closing. now rewrite Hclosed.
  - intros s Hs Hopen. exists (closing self w). split; [apply close_eq|].
    destruct (closing_open _ _ _ Hs Hopen) as (Hsub & Hls & Himpl & _ & Htask).
    split; [exact Hsub|]. split; [exact Hls|].
    split; [now rewrite remove_listener_eq|].
    split; [|exact Htask].
    intros Hin. rewrite Himpl.
    destruct (shutdown_if_unused_frame (removal (sub_rx s) w))
      as (_ & _ & _ & _ & -> & _).
    unfold removal.
    destruct (list_remove (sub_rx s) (impl_listeners (impl w))) as [ls|e] eqn:Hrm.
    + apply list_remove_Ok in Hrm as (before & after & H1 & H2 & ->).
      exists before, after. done.
    + apply list_remove_Raise_eq in Hrm as He. subst e.
      apply list_remove_Raise in Hrm. done.
Qed.

Lemma close_is_idempotent_witness :
  exists w',
    Subscriber.close 0%nat world1 = (Ok tt, w')
    /\ subscribers w' !! 0%nat = Some (mkSubscriber true None 0%nat)
    /\ impl_listeners (impl w') = []
    /\ Subscriber.close 0%nat w' = (Ok tt, w').
Proof.
  destruct (close_is_idempotent 0%nat world1) as (_ & _ & H).
  destruct (H (mkSubscriber false None 0%nat) eq_refl eq_refl)
    as (w' & Hclose & Hsub & _ & _ & Hin & _).
  destruct (Hin ltac:(left)) as (before & after & Hsplit & Hnot & Hafter).
  exists w'. split; [exact Hclose|]. split; [exact Hsub|].
  assert (w' = (Subscriber.close 0%nat world1).2) as -> by now rewrite Hclose.
  split; reflexivity.
Defined.

(** ** Relations kept by every computation *)

Section Preserves.

Variable R : World -> World -> Prop.
Hypothesis R_refl : forall w, R w w.
Hypothesis R_trans : forall w1 w2 w3, R w1 w2 -> R w2 w3 -> R w1 w3.

Lemma preserves_ret {A} (a : A) : preserves R (mret a).
  Proof. intros w. apply R_refl. Qed.

Lemma preserves_raise {A} ex : preserves R (raise (A := A) ex).
  Proof. intros w. apply R_refl. Qed.

Lemma preserves_gets {A} (f : World -> A) : preserves R (gets f).
  Proof. intros w. apply R_refl. Qed.

Lemma preserves_from_result {A} (r : Result A) : preserves R (from_result r).
  Proof. intros w. apply R_refl. Qed.

Lemma preserves_modify f : (forall w, R w (f w)) -> preserves R (modify f).
  Proof. intros H w. apply H. Qed.

Lemma preserves_mbind {A B} (m : Py A) (k : A -> Py B) :
    preserves R m -> (forall a, preserves R (k a)) -> preserves R (m ≫= k).
  Proof.
    intros Hm Hk w. unfold mbind, Py_bind. specialize (Hm w).
    destruct (m w) as [[a|ex] w1]; [|exact Hm].
    eapply R_trans; [exact Hm | apply Hk].
  Qed.

Lemma preserves_bind {A B} (m : Py A) (k : A -> Py B) :
    preserves R m -> (forall a, preserves R (k a)) -> preserves R (bind m k).
  Proof. apply preserves_mbind. Qed.

Lemma preserves_try_except {A} (body : Py A) handler :
    preserves R body -> (forall ex, preserves R (handler ex)) ->
    preserves R (try_except body handler).
  Proof.
    intros Hm Hk w. unfold try_except. specialize (Hm w).
    destruct (body w) as [[a|ex] w1]; [exact Hm|].
    eapply R_trans; [exact Hm | apply Hk].
  Qed.

Lemma preserves_for_each {A} (xs : list A) body :
    (forall x, preserves R (body x)) -> preserves R (for_each xs body).
  Proof.
    intros H. induction xs as [|x rest IH]; cbn [for_each].
    - apply preserves_ret.
    - apply preserves_mbind; [apply H | intros _; exact IH].
  Qed.

Lemma preserves_logger level format :
    (forall f w, R w (set_log f w)) -> preserves R (_logger level format).
  Proof. intros H. apply preserves_modify. intros w. apply H. Qed.

End Preserves.

(** One step of a proof that a method keeps a relation: the structure of
    the code is taken apart, the primitives are left to [tac]. *)
Ltac preserves_with refl trans tac :=
  repeat first
    [ progress tac
    | apply (preserves_ret _ refl)
    | apply (preserves_raise _ refl)
    | apply (preserves_gets _ refl)
    | apply (preserves_from_result _ refl)
    | apply (preserves_bind _ trans); [|intros ?]
    | apply (preserves_mbind _ trans); [|intros ?]
    | apply (preserves_try_except _ trans); [|intros ?]
    | apply (preserves_for_each _ refl trans); intros ?
    | match goal with
      | |- preserves _ (if ?b then _ else _) => destruct b
      | |- preserves _ (match ?x with _ => _ end) => destruct x
      end ].

(** ** The listeners only grow *)

Lemma listener_le_refl l : listener_le l l.
Proof. unfold listener_le. repeat split; [lia | lia | done]. Qed.

Lemma listener_le_trans l1 l2 l3 :
  listener_le l1 l2 -> listener_le l2 l3 -> listener_le l1 l3.
Proof. unfold listener_le. intros (? & ? & ?) (? & ? & ?). repeat split; [lia | lia | auto]. Qed.

Lemma grow_refl w : listeners_grow w w.
Proof. intros rx l H. exists l. split; [done | apply listener_le_refl]. Qed.

Lemma grow_trans w1 w2 w3 :
  listeners_grow w1 w2 -> listeners_grow w2 w3 -> listeners_grow w1 w3.
Proof.
  intros H12 H23 rx l H. destruct (H12 rx l H) as (l2 & H2 & Hle2).
  destruct (H23 rx l2 H2) as (l3 & H3 & Hle3).
  exists l3. split; [done | eapply listener_le_trans; eauto].
Qed.

Lemma grow_same w w' : listeners w' = listeners w -> listeners_grow w w'.
Proof. intros Heq rx l H. rewrite Heq. exists l. split; [done | apply listener_le_refl]. Qed.

Lemma grow_insert w rx l l' :
  listeners w !! rx = Some l ->
  listener_le l l' ->
  listeners_grow w (set_listeners (fun ls => <[rx := l']> ls) w).
Proof.
  intros Hl Hle i li Hi. cbn. destruct (decide (rx = i)) as [->|Hne].
  - rewrite list_lookup_insert_eq by now apply lookup_lt_Some in Hi.
    exists l'. split; [done | congruence].
  - rewrite list_lookup_insert_ne by done.
    exists li. split; [done | apply listener_le_refl].
Qed.

Lemma grow_alloc w l :
  listeners_grow w (set_listeners (fun ls => ls ++ [l]) w).
Proof.
  intros i li Hi. cbn. exists li. split; [|apply listener_le_refl].
  now apply lookup_app_l_Some.
Qed.

Lemma push_le message transfer l l' : push message transfer l = Ok l' -> listener_le l l'.
Proof.
  destruct (Queue.full (queue l)) eqn:Hfull.
  - rewrite push_full by done. intros [= <-]. unfold listener_le. cbn.
    repeat split; [lia | lia | done].
  - rewrite push_not_full by done. intros [= <-]. unfold listener_le. cbn.
    repeat split; [lia | lia | done].
Qed.

Lemma grow_on_listener rx method :
  (forall l l', method l = Ok l' -> listener_le l l') ->
  preserves listeners_grow (on_listener rx method).
Proof.
  intros H w. unfold on_listener.
  destruct (listeners w !! rx) as [l|] eqn:Hl; [|apply grow_refl].
  destruct (method l) as [l'|ex] eqn:Hm; [|apply grow_refl].
  cbn. eapply grow_insert; eauto.
Qed.

Lemma grow_get_nowait rx : preserves listeners_grow (Subscriber.get_nowait rx).
Proof.
  intros w. unfold Subscriber.get_nowait.
  destruct (listeners w !! rx) as [l|] eqn:Hl; [|apply grow_refl].
  destruct (Queue.get_nowait (queue l)) as [[item q]|ex]; [|apply grow_refl].
  cbn. eapply grow_insert; [exact Hl|]. unfold listener_le. cbn.
  repeat split; [lia | lia | done].
Qed.

Lemma grow_Task_cancel task : preserves listeners_grow (Task_cancel task).
Proof.
  intros w. apply grow_same. fold (cancelled task w).
  now destruct (cancelled_frame task w) as (-> & _).
Qed.

Lemma grow_create_task : preserves listeners_grow create_task.
Proof. intros w. now apply grow_same. Qed.

Ltac grow_prim :=
  first
    [ apply grow_Task_cancel
    | apply grow_create_task
    | apply grow_get_nowait
    | apply grow_on_listener;
      [let H := fresh in
       intros ? ? H;
       first [ eapply push_le; exact H
             | injection H as <-; unfold listener_le; cbn;
               repeat split; try lia; eauto ]]
    | apply preserves_logger; intros ? ?; apply grow_same; reflexivity
    | apply preserves_modify; intros ?;
      first [ apply grow_same; reflexivity | apply grow_alloc ] ].

Create HintDb grow discriminated.

Ltac grow :=
  preserves_with grow_refl grow_trans
    ltac:(first [ solve [auto 1 with grow nocore] | grow_prim ]).

Lemma grow_add_listener rx : preserves listeners_grow (SubscriberImpl.add_listener rx).
Proof. unfold SubscriberImpl.add_listener, SubscriberImpl._raise_if_closed. grow. Qed.
#[local] Hint Resolve grow_add_listener : grow.

Lemma grow_remove_listener rx : preserves listeners_grow (SubscriberImpl.remove_listener rx).
Proof. unfold SubscriberImpl.remove_listener. grow. Qed.
#[local] Hint Resolve grow_remove_listener : grow.

Lemma grow_impl_close : preserves listeners_grow SubscriberImpl.close.
Proof. unfold SubscriberImpl.close. grow. Qed.
#[local] Hint Resolve grow_impl_close : grow.

Lemma grow_loop_body received : preserves listeners_grow (SubscriberImpl.loop_body received).
Proof. unfold SubscriberImpl.loop_body. grow. Qed.
#[local] Hint Resolve grow_loop_body : grow.

Lemma grow_after_loop exception : preserves listeners_grow (SubscriberImpl.after_loop exception).
Proof.
  unfold SubscriberImpl.after_loop, SubscriberImpl.call_finalizer. grow.
Qed.
#[local] Hint Resolve grow_after_loop : grow.

Lemma grow__task_function : preserves listeners_grow SubscriberImpl._task_function.
Proof.
  unfold SubscriberImpl._task_function, SubscriberImpl.loop_test,
    SubscriberImpl.loop_handlers, SubscriberImpl.leave_or_await.
  grow.
Qed.
#[local] Hint Resolve grow__task_function : grow.

Lemma grow_resume__task_function received :
  preserves listeners_grow (SubscriberImpl.resume__task_function received).
Proof.
  unfold SubscriberImpl.resume__task_function, SubscriberImpl.loop_test,
    SubscriberImpl.loop_handlers, SubscriberImpl.leave_or_await.
  grow.
Qed.
#[local] Hint Resolve grow_resume__task_function : grow.

Lemma grow_update self f : preserves listeners_grow (Subscriber.update self f).
Proof. unfold Subscriber.update. grow. Qed.
#[local] Hint Resolve grow_update : grow.

Lemma grow___init__ queue_capacity : preserves listeners_grow (Subscriber.__init__ queue_capacity).
Proof. unfold Subscriber.__init__. grow. Qed.
#[local] Hint Resolve grow___init__ : grow.

Lemma grow_receive_in_background self :
  preserves listeners_grow (Subscriber.receive_in_background self).
Proof. unfold Subscriber.receive_in_background. grow. Qed.
#[local] Hint Resolve grow_receive_in_background : grow.

Lemma grow__raise_if_closed_or_failed self :
  preserves listeners_grow (Subscriber._raise_if_closed_or_failed self).
Proof. unfold Subscriber._raise_if_closed_or_failed. grow. Qed.
#[local] Hint Resolve grow__raise_if_closed_or_failed : grow.

Lemma grow_receive_for_handlers ex :
  preserves listeners_grow (Subscriber.receive_for_handlers ex).
Proof. unfold Subscriber.receive_for_handlers. grow. Qed.
#[local] Hint Resolve grow_receive_for_handlers : grow.

Lemma grow_receive_for timeout self :
  preserves listeners_grow (Subscriber.receive_for timeout self).
Proof.
  unfold Subscriber.receive_for.
  grow.
Qed.
#[local] Hint Resolve grow_receive_for : grow.

Lemma grow_resume_receive_for timeout waited self :
  preserves listeners_grow (Subscriber.resume_receive_for timeout waited self).
Proof.
  unfold Subscriber.resume_receive_for. grow.
Qed.
#[local] Hint Resolve grow_resume_receive_for : grow.

Lemma grow_receive fuel self : preserves listeners_grow (Subscriber.receive fuel self).
Proof.
  induction fuel as [|fuel IH]; cbn [Subscriber.receive]; [grow|].
  unfold Subscriber.receive_turn. grow.
Qed.
#[local] Hint Resolve grow_receive : grow.

Lemma grow_resume_receive fuel waited self :
  preserves listeners_grow (Subscriber.resume_receive fuel waited self).
Proof.
  unfold Subscriber.resume_receive, Subscriber.receive_turn.
  grow.
Qed.
#[local] Hint Resolve grow_resume_receive : grow.

Lemma grow___anext___handlers {A} ex :
  preserves listeners_grow (Subscriber.__anext___handlers (A := A) ex).
Proof. unfold Subscriber.__anext___handlers. grow. Qed.
#[local] Hint Resolve grow___anext___handlers : grow.

Lemma grow___anext__ fuel self : preserves listeners_grow (Subscriber.__anext__ fuel self).
Proof.
  unfold Subscriber.__anext__.
  grow.
Qed.
#[local] Hint Resolve grow___anext__ : grow.

Lemma grow_resume___anext__ fuel waited self :
  preserves listeners_grow (Subscriber.resume___anext__ fuel waited self).
Proof.
  unfold Subscriber.resume___anext__.
  grow.
Qed.
#[local] Hint Resolve grow_resume___anext__ : grow.

Lemma grow_sub_close self : preserves listeners_grow (Subscriber.close self).
Proof.
  unfold Subscriber.close. grow.
Qed.
#[local] Hint Resolve grow_sub_close : grow.

Lemma grow___del__ self : preserves listeners_grow (Subscriber.__del__ self).
Proof.
  unfold Subscriber.__del__. grow.
Qed.
#[local] Hint Resolve grow___del__ : grow.

Lemma grow_task_step received w : listeners_grow w (task_step received w).
Proof.
  unfold task_step.
  destruct (tasks w !! impl_task (impl w)) as [[[] []]|]; try apply grow_refl.
  - now apply grow_same.
  - pose proof (grow__task_function w) as H.
    destruct (SubscriberImpl._task_function w) as [[[]|] w']; exact H.
  - pose proof (grow_resume__task_function received w) as H.
    destruct (SubscriberImpl.resume__task_function received w) as [[[]|] w']; exact H.
  - pose proof (grow_resume__task_function received w) as H.
    destruct (SubscriberImpl.resume__task_function received w) as [[[]|] w']; exact H.
Qed.

Lemma grow_step ev w : listeners_grow w (step ev w).
Proof.
  destruct ev; cbn [step].
  - apply grow_task_step.
  - apply grow_impl_close.
  - apply grow_add_listener.
  - apply grow_remove_listener.
  - apply grow___init__.
  - apply grow_receive_in_background.
  - apply grow_receive_for.
  - apply grow_resume_receive_for.
  - apply grow_receive.
  - apply grow_resume_receive.
  - apply grow___anext__.
  - apply grow_resume___anext__.
  - apply grow_sub_close.
  - apply grow___del__.
Qed.

(** C9.  Whatever the receiver's task, the receiver and the subscribers do,
    in any order and for any length of time, every listener stays where it
    is, its [push_count] and [overrun_count] do not go down, and a terminal
    failure it carries is not taken away. *)
Theorem listener_counters_never_decrease
    (evs : list Event) (w : World) (rx : nat) (l : _Listener) :
  listeners w !! rx = Some l ->
  exists l',
    listeners (run evs w) !! rx = Some l'
    /\ push_count l <= push_count l'
    /\ overrun_count l <= overrun_count l'
    /\ (forall ex, exception l = Some ex -> exists ex', exception l' = Some ex').
Proof.
  assert (H : listeners_grow w (run evs w)).
  { revert w. induction evs as [|ev rest IH]; intros w; cbn [run].
    - apply grow_refl.
    - eapply grow_trans; [apply grow_step | apply IH]. }
  intros Hl. destruct (H rx l Hl) as (l' & Hl' & Hpc & Hoc & Hex).
  exists l'. repeat split; try done.
  intros ex Hsome. apply Hex. now exists ex.
Qed.

Lemma listener_counters_never_decrease_witness :
  exists l',
    listeners (run [Close 0%nat; TaskStep (ReceiveRaised transport_fault)]
                   world1_delivered) !! 0%nat = Some l'
    /\ 1 <= push_count l'
    /\ 0 <= overrun_count l'.
Proof.
  destruct (listener_counters_never_decrease
              [Close 0%nat; TaskStep (ReceiveRaised transport_fault)]
              world1_delivered 0%nat
              (mkListener (Queue.mk 2 [(message1, transfer1)]) 1 0 None) eq_refl)
    as (l' & Hl' & Hpc & Hoc & _).
  exists l'. auto.
Defined.

(** ** What only the task changes *)

Lemma quiet_refl w : quiet w w.
Proof.
  unfold quiet. repeat split; try done.
  intros i t H. exists (must_cancel t). rewrite H. now destruct t.
Qed.

Lemma quiet_trans w1 w2 w3 : quiet w1 w2 -> quiet w2 w3 -> quiet w1 w3.
Proof.
  unfold quiet. intros (? & ? & ? & ? & ? & H12) (? & ? & ? & ? & ? & H23).
  repeat split; try congruence; auto.
  intros i t Hi. destruct (H12 i t Hi) as (mc & Hmid).
  destruct (H23 i _ Hmid) as (mc' & Hend). eauto.
Qed.

Lemma quiet_same_tasks w w' :
  finalized w' = finalized w ->
  impl_task (impl w') = impl_task (impl w) ->
  impl_transport_session (impl w') = impl_transport_session (impl w) ->
  impl_finalizer (impl w') = impl_finalizer (impl w) ->
  (impl_closed (impl w) = true -> impl_closed (impl w') = true) ->
  tasks w' = tasks w ->
  quiet w w'.
Proof.
  intros Hf Hk Hs Hz Hc Ht. unfold quiet. repeat split; try done.
  intros i t Hi. rewrite Ht. exists (must_cancel t). rewrite Hi. now destruct t.
Qed.

Lemma quiet_modify f :
  (forall w, finalized (f w) = finalized w
             /\ impl_task (impl (f w)) = impl_task (impl w)
             /\ impl_transport_session (impl (f w)) = impl_transport_session (impl w)
             /\ impl_finalizer (impl (f w)) = impl_finalizer (impl w)
             /\ (impl_closed (impl w) = true -> impl_closed (impl (f w)) = true)
             /\ tasks (f w) = tasks w) ->
  preserves quiet (modify f).
Proof.
  intros Hf w. destruct (Hf w) as (? & ? & ? & ? & ? & ?). now apply quiet_same_tasks.
Qed.

Lemma quiet_on_listener rx method : preserves quiet (on_listener rx method).
Proof.
  intros w. unfold on_listener.
  destruct (listeners w !! rx) as [l|]; [|apply quiet_refl].
  destruct (method l); [|apply quiet_refl]. now apply quiet_same_tasks.
Qed.

Lemma quiet_get_nowait rx : preserves quiet (Subscriber.get_nowait rx).
Proof.
  intros w. unfold Subscriber.get_nowait.
  destruct (listeners w !! rx) as [l|]; [|apply quiet_refl].
  destruct (Queue.get_nowait (queue l)) as [[item q]|ex]; [|apply quiet_refl].
  now apply quiet_same_tasks.
Qed.

Lemma quiet_Task_cancel task : preserves quiet (Task_cancel task).
Proof.
  intros w. fold (cancelled task w).
  destruct (cancelled_frame task w) as (_ & _ & Hi & Hf & _).
  unfold quiet. rewrite Hi, Hf. repeat split; try done.
  intros i t Hlook. now apply cancelled_keeps_state.
Qed.

Lemma quiet_create_task : preserves quiet create_task.
Proof.
  intros w. unfold quiet. cbn. repeat split; try done.
  intros i t Hlook. exists (must_cancel t).
  rewrite (lookup_app_l_Some _ _ _ _ Hlook). now destruct t.
Qed.

Ltac quiet_prim :=
  first
    [ apply quiet_Task_cancel
    | apply quiet_create_task
    | apply quiet_get_nowait
    | apply quiet_on_listener
    | apply preserves_logger; intros ? ?; apply quiet_same_tasks; (reflexivity || done)
    | apply quiet_modify; intros ?; cbn; repeat split; done ].

Create HintDb quiet discriminated.

Ltac quiet :=
  preserves_with quiet_refl quiet_trans
    ltac:(first [ solve [auto 1 with quiet nocore] | quiet_prim ]).

Lemma quiet_add_listener rx : preserves quiet (SubscriberImpl.add_listener rx).
Proof. unfold SubscriberImpl.add_listener, SubscriberImpl._raise_if_closed. quiet. Qed.
#[local] Hint Resolve quiet_add_listener : quiet.

Lemma quiet_remove_listener rx : preserves quiet (SubscriberImpl.remove_listener rx).
Proof. unfold SubscriberImpl.remove_listener. quiet. Qed.
#[local] Hint Resolve quiet_remove_listener : quiet.

Lemma quiet_impl_close : preserves quiet SubscriberImpl.close.
Proof. unfold SubscriberImpl.close. quiet. Qed.
#[local] Hint Resolve quiet_impl_close : quiet.

Lemma quiet_loop_body received : preserves quiet (SubscriberImpl.loop_body received).
Proof. unfold SubscriberImpl.loop_body. quiet. Qed.
#[local] Hint Resolve quiet_loop_body : quiet.

Lemma quiet_loop_handlers ex : preserves quiet (SubscriberImpl.loop_handlers ex).
Proof. unfold SubscriberImpl.loop_handlers. quiet. Qed.
#[local] Hint Resolve quiet_loop_handlers : quiet.

Lemma quiet_update self f : preserves quiet (Subscriber.update self f).
Proof. unfold Subscriber.update. quiet. Qed.
#[local] Hint Resolve quiet_update : quiet.

Lemma quiet___init__ queue_capacity : preserves quiet (Subscriber.__init__ queue_capacity).
Proof. unfold Subscriber.__init__. quiet. Qed.
#[local] Hint Resolve quiet___init__ : quiet.

Lemma quiet_receive_in_background self :
  preserves quiet (Subscriber.receive_in_background self).
Proof. unfold Subscriber.receive_in_background. quiet. Qed.
#[local] Hint Resolve quiet_receive_in_background : quiet.

Lemma quiet__raise_if_closed_or_failed self :
  preserves quiet (Subscriber._raise_if_closed_or_failed self).
Proof. unfold Subscriber._raise_if_closed_or_failed. quiet. Qed.
#[local] Hint Resolve quiet__raise_if_closed_or_failed : quiet.

Lemma quiet_receive_for_handlers ex : preserves quiet (Subscriber.receive_for_handlers ex).
Proof. unfold Subscriber.receive_for_handlers. quiet. Qed.
#[local] Hint Resolve quiet_receive_for_handlers : quiet.

Lemma quiet_receive_for timeout self : preserves quiet (Subscriber.receive_for timeout self).
Proof. unfold Subscriber.receive_for. quiet. Qed.
#[local] Hint Resolve quiet_receive_for : quiet.

Lemma quiet_resume_receive_for timeout waited self :
  preserves quiet (Subscriber.resume_receive_for timeout waited self).
Proof. unfold Subscriber.resume_receive_for. quiet. Qed.
#[local] Hint Resolve quiet_resume_receive_for : quiet.

Lemma quiet_receive fuel self : preserves quiet (Subscriber.receive fuel self).
Proof.
  induction fuel as [|fuel IH]; cbn [Subscriber.receive]; [quiet|].
  unfold Subscriber.receive_turn. quiet.
Qed.
#[local] Hint Resolve quiet_receive : quiet.

Lemma quiet_resume_receive fuel waited self :
  preserves quiet (Subscriber.resume_receive fuel waited self).
Proof. unfold Subscriber.resume_receive, Subscriber.receive_turn. quiet. Qed.
#[local] Hint Resolve quiet_resume_receive : quiet.

Lemma quiet___anext___handlers {A} ex :
  preserves quiet (Subscriber.__anext___handlers (A := A) ex).
Proof. unfold Subscriber.__anext___handlers. quiet. Qed.
#[local] Hint Resolve quiet___anext___handlers : quiet.

Lemma quiet___anext__ fuel self : preserves quiet (Subscriber.__anext__ fuel self).
Proof. unfold Subscriber.__anext__. quiet. Qed.
#[local] Hint Resolve quiet___anext__ : quiet.

Lemma quiet_resume___anext__ fuel waited self :
  preserves quiet (Subscriber.resume___anext__ fuel waited self).
Proof. unfold Subscriber.resume___anext__. quiet. Qed.
#[local] Hint Resolve quiet_resume___anext__ : quiet.

Lemma quiet_sub_close self : preserves quiet (Subscriber.close self).
Proof. unfold Subscriber.close. quiet. Qed.
#[local] Hint Resolve quiet_sub_close : quiet.

Lemma quiet___del__ self : preserves quiet (Subscriber.__del__ self).
Proof. unfold Subscriber.__del__. quiet. Qed.
#[local] Hint Resolve quiet___del__ : quiet.

(** ** The end of the receiver's task *)

Lemma for_each_push_returns message transfer (ls : list nat) : forall w,
  (for_each ls (fun rx => on_listener rx (push message transfer)) w).1 = Ok tt.
Proof.
  induction ls as [|rx rest IH]; intros w; cbn [for_each]; [done|].
  unfold mbind, Py_bind, on_listener at 1.
  destruct (listeners w !! rx) as [l|]; [|apply IH].
  destruct (push_returns message transfer l) as [l' ->]. apply IH.
Qed.

Lemma loop_body_result received w :
  (SubscriberImpl.loop_body received w).1 =
    match received with
    | ReceiveRaised ex | ReceivedTransfer _ (Raise ex) => Raise ex
    | _ => Ok tt
    end.
Proof.
  destruct received as [|transfer [[message|]|ex]|ex]; try done.
  unfold SubscriberImpl.loop_body. py_unfold. cbn. apply for_each_push_returns.
Qed.

Lemma set_exception_twice ex l :
  set_exception (Some ex) (set_exception (Some ex) l) = set_exception (Some ex) l.
Proof. done. Qed.

Lemma mark_all_spec ex (ls : list nat) : forall w,
  exists h,
    for_each ls (fun rx => on_listener rx (fun l => Ok (set_exception (Some ex) l))) w
      = (Ok tt, set_listeners (fun _ => h) w)
    /\ (forall rx l', h !! rx = Some l' ->
          exists l, listeners w !! rx = Some l
                    /\ (l' = l \/ l' = set_exception (Some ex) l))
    /\ (forall rx l', h !! rx = Some l' -> rx ∈ ls -> exception l' = Some ex).
Proof.
  induction ls as [|x rest IH]; intros w; cbn [for_each].
  - exists (listeners w). split; [now destruct w|]. split.
    + intros rx l' H. exists l'. auto.
    + intros rx l' _ H. now apply not_elem_of_nil in H.
  - unfold mbind, Py_bind, on_listener at 1.
    destruct (listeners w !! x) as [lx|] eqn:Hx.
    + destruct (IH (set_listeners (fun ls => <[x := set_exception (Some ex) lx]> ls) w))
        as (h & -> & Hfrom & Hmark).
      exists h. split; [done|].
      assert (Hfrom' : forall rx l', h !! rx = Some l' ->
                exists l, listeners w !! rx = Some l
                          /\ (l' = l \/ l' = set_exception (Some ex) l)
                          /\ (rx = x -> exception l' = Some ex)).
      { intros rx l' H. destruct (Hfrom rx l' H) as (l1 & H1 & Hl'). cbn in H1.
        destruct (decide (x = rx)) as [->|Hne].
        - rewrite list_lookup_insert_eq in H1 by now apply lookup_lt_Some in Hx.
          injection H1 as <-. exists lx. split; [done|].
          destruct Hl' as [->| ->]; auto.
        - rewrite list_lookup_insert_ne in H1 by done.
          exists l1. split; [done|]. split; [done | congruence]. }
      split.
      * intros rx l' H. destruct (Hfrom' rx l' H) as (l & ? & ? & _). eauto.
      * intros rx l' H Hin. apply elem_of_cons in Hin as [->|Hin].
        -- now destruct (Hfrom' x l' H) as (l & _ & _ & Hex); apply Hex.
        -- eauto.
    + destruct (IH w) as (h & -> & Hfrom & Hmark).
      exists h. split; [done|]. split; [exact Hfrom|].
      intros rx l' H Hin. apply elem_of_cons in Hin as [->|Hin]; [|eauto].
      destruct (Hfrom x l' H) as (l & Hl & _). congruence.
Qed.

Lemma after_loop_spec fault w :
  exists w',
    SubscriberImpl.after_loop fault w = (Ok tt, w')
    /\ impl_closed (impl w') = true
    /\ finalized w' = finalized w ++ [[impl_transport_session (impl w)]]
    /\ tasks w' = tasks w
    /\ impl_task (impl w') = impl_task (impl w)
    /\ impl_transport_session (impl w') = impl_transport_session (impl w)
    /\ impl_finalizer (impl w') = impl_finalizer (impl w)
    /\ impl_listeners (impl w') = impl_listeners (impl w)
    /\ subscribers w' = subscribers w
    /\ (forall rx l', rx ∈ impl_listeners (impl w') ->
          listeners w' !! rx = Some l' ->
          exception l' = Some (terminal_failure w fault)).
Proof.
  unfold SubscriberImpl.after_loop, SubscriberImpl.call_finalizer, terminal_failure.
  py_unfold. cbn.
  destruct (finalizer_raises (impl_finalizer (impl w))) as [raised|]; cbn.
  - match goal with |- context [for_each ?ls ?f ?w0] =>
      destruct (mark_all_spec raised ls w0) as (h & Heq & _ & Hmark) end.
    cbn in Heq. eexists. split; [exact Heq|]. cbn. repeat split; try done.
    intros rx l' Hin Hl'. eauto.
  - match goal with |- context [for_each ?ls ?f ?w0] =>
      destruct (mark_all_spec
                  (match fault with
                   | Some ex => ex
                   | None => SubscriberImpl.closed_error
                   end) ls w0) as (h & Heq & _ & Hmark) end.
    cbn in Heq. eexists. split; [exact Heq|]. cbn. repeat split; try done.
    intros rx l' Hin Hl'. eauto.
Qed.
